(** * deta-go, Base client: item normalisation, update encoding, paging

    A shallow embedding of [src/base.go].  The functions of the Go file keep
    their names.  What the file takes from elsewhere is modelled as follows.

    - [encoding/json]: a JSON document is a value of [json]; [json.Marshal]
      and [json.Unmarshal] are the functions of the first part of this file.
      Numbers are integers ([Z]); members of an object aimed at a Go struct
      are matched by their exact name, the last occurrence winning.
    - A Go slice is a [list] where the code only uses [len], [range],
      [append] and indexing on it, none of which tells a nil slice from an
      empty one.  [updateRequest.Trim], built by [append] alone, is nil
      exactly when it is empty.  [fetchResponse.Items] is marshalled as it
      was decoded, and is an [option (list json)].
    - A Go map that can be nil is an [option (gmap string json)]; the
      values held in an item are kept as the JSON documents they were
      decoded from.
    - [range] over a map visits its entries in an order Go does not fix:
      the order is a parameter of [updatesToUpdateRequest], any
      permutation of the entries.
    - A run-time panic ([nil] dereference, index out of range, failed type
      assertion) is a result of its own, next to a value and an error.
    - [client.request] is not part of [base.go]: the client is a function
      from the request to its answer, and every operation returns, next to
      its result, the list of requests it issued. *)

From Stdlib Require Import ZArith String Ascii List.
From stdpp Require Import base option list gmap strings sorting pretty.

Set Warnings "-register-all,-clear-no-such-hyp".

Local Open Scope Z_scope.
Local Open Scope string_scope.

(** ** JSON documents *)

Inductive json : Type :=
| JNull
| JBool (b : bool)
| JNum (n : Z)
| JStr (s : string)
| JArr (l : list json)
| JObj (fs : list (string * json)).

(** The word [encoding/json] uses for a value in its type errors. *)
Definition jsonKind (j : json) : string :=
  match j with
  | JNull => "null"
  | JBool _ => "bool"
  | JNum _ => "number"
  | JStr _ => "string"
  | JArr _ => "array"
  | JObj _ => "object"
  end.

(** ** Errors, panics and results *)

Inductive error : Type :=
| ErrTooManyItems
| ErrBadDestination
| ErrBadItem
| Wrapf (sentinel : error) (detail : string)
| ErrJSON (detail : string)
| ErrTransport (detail : string).

(** [errors.Is]. *)
Fixpoint errorsIs (e target : error) : Prop :=
  e = target \/
  match e with
  | Wrapf s _ => errorsIs s target
  | _ => False
  end.

Inductive panic : Type :=
| NilDereference
| IndexOutOfRange
| InterfaceConversion.

Inductive outcome (A : Type) : Type :=
| Ok (a : A)
| Err (e : error)
| Panic (p : panic).
Arguments Ok {A} a.
Arguments Err {A} e.
Arguments Panic {A} p.

Definition is_Ok {A} (o : outcome A) : Prop := exists a, o = Ok a.
Definition is_Err {A} (o : outcome A) : Prop := exists e, o = Err e.
Definition is_Panic {A} (o : outcome A) : Prop := exists p, o = Panic p.

Definition outcome_bind {A B} (f : A -> outcome B) (o : outcome A) : outcome B :=
  match o with
  | Ok a => f a
  | Err e => Err e
  | Panic p => Panic p
  end.

#[global] Instance outcome_ret : MRet outcome := fun _ a => Ok a.
#[global] Instance outcome_mbind : MBind outcome := fun _ _ f o => outcome_bind f o.

(** The [for] loops of the file that leave at the first failure. *)
Fixpoint forM {A B} (f : A -> outcome B) (l : list A) : outcome (list B) :=
  match l with
  | [] => Ok []
  | a :: l' => b ← f a; bs ← forM f l'; Ok (b :: bs)
  end.

(** ** Values a caller hands over as [interface{}] *)

Inductive goValue : Type :=
| GoNil
| GoJson (j : json)
| GoSlice (vs : list goValue)
| GoUnsupported.

(** [json.Marshal]: [GoNil] is the nil interface, [GoJson j] any value whose
    encoding is [j] (a struct, a map, a typed nil pointer for [JNull]),
    [GoSlice] a [[]interface{}], [GoUnsupported] a value such as a channel
    or a function, on which [json.Marshal] returns an error. *)
Fixpoint marshal (v : goValue) : option json :=
  match v with
  | GoNil => Some JNull
  | GoJson j => Some j
  | GoSlice vs =>
      JArr <$> (fix go (l : list goValue) : option (list json) :=
                  match l with
                  | [] => Some []
                  | x :: l' =>
                      match marshal x, go l' with
                      | Some j, Some js => Some (j :: js)
                      | _, _ => None
                      end
                  end) vs
  | GoUnsupported => None
  end.

(** ** Items *)

Abbreviation baseItem := (option (gmap string json)).

Definition typeError (j : json) (goType : string) : string :=
  "json: cannot unmarshal " +:+ jsonKind j +:+ " into Go value of type " +:+ goType.

(** A JSON object decoded into a Go map: members are stored one after the
    other, so that a repeated name keeps its last value. *)
Definition fieldsToMap (fs : list (string * json)) : gmap string json :=
  foldl (fun m f => <[f.1 := f.2]> m) ∅ fs.

(** [json.Unmarshal(data, &bi)] for [var bi baseItem]. *)
Definition unmarshalBaseItem (j : json) : string + baseItem :=
  match j with
  | JNull => inr None
  | JObj fs => inr (Some (fieldsToMap fs))
  | _ => inl (typeError j "deta.baseItem")
  end.

(** [json.Unmarshal(data, &bi)] for [var bi []baseItem]: the decoder goes
    through the whole array and reports the first element it could not
    store. *)
Fixpoint unmarshalElems (l : list json) : string + list baseItem :=
  match l with
  | [] => inr []
  | j :: l' =>
      match unmarshalBaseItem j, unmarshalElems l' with
      | inl d, _ => inl d
      | inr _, inl d => inl d
      | inr bi, inr bis => inr (bi :: bis)
      end
  end.

Definition unmarshalBaseItems (j : json) : string + list baseItem :=
  match j with
  | JNull => inr []
  | JArr l => unmarshalElems l
  | _ => inl (typeError j "[]deta.baseItem")
  end.

(** [bi["key"]]: reading a nil map finds nothing. *)
Definition itemLookup (k : string) (bi : baseItem) : option json :=
  bi ≫= (fun m => m !! k).

(** [delete(bi, k)]: a no-op on a nil map. *)
Definition itemDelete (k : string) (bi : baseItem) : baseItem :=
  delete k <$> bi.

(** [removeEmptyKey] changes the map it is given; the changed map is
    returned here. *)
Definition removeEmptyKey (bi : baseItem) : outcome baseItem :=
  match itemLookup "key" bi with
  | None => Ok bi
  | Some (JStr key) =>
      if decide (key = "") then Ok (itemDelete "key" bi) else Ok bi
  | Some _ => Err (Wrapf ErrBadItem "Key is not a string")
  end.

Definition modifyItem (item : goValue) : outcome baseItem :=
  match marshal item with
  | None => Err ErrBadItem
  | Some data =>
      match unmarshalBaseItem data with
      | inl detail => Err (Wrapf ErrBadItem detail)
      | inr bi => removeEmptyKey bi
      end
  end.

Definition modifyItems (items : goValue) : outcome (list baseItem) :=
  match marshal items with
  | None => Err ErrBadItem
  | Some data =>
      match unmarshalBaseItems data with
      | inl detail => Err (Wrapf ErrBadItem detail)
      | inr bi => forM removeEmptyKey bi
      end
  end.

(** ** Requests and the client *)

(** [type Query []map[string]interface{}]; [None] is the nil query. *)
Abbreviation Query := (option (list (gmap string json))).

Record insertRequest : Type := { Item : baseItem }.

(** [Set] is a reserved word here: the field [Set] of the Go struct is
    [Set_]. *)
Record updateRequest : Type := {
  Set_ : gmap string json;
  Trim : list string;
  Append : gmap string json;
  Prepend : gmap string json;
  Increment : gmap string json
}.

(** [paging], [fetchRequest] and [fetchResponse] share field names with
    each other and with the type [Query]: each lives in a module of its
    own, and [fetchRequest.Last req] reads as [req.Last] does. *)
Module fetchRequest.
Record t : Type := {
  Query : Query;
  Last : option string;
  Limit : option Z
}.
End fetchRequest.

(** The values [base.go] passes as [requestInput.Body]. *)
Inductive requestBody : Type :=
| NoBody
| PutBody (items : list baseItem)
| InsertBody (ir : insertRequest)
| UpdateBody (ur : updateRequest)
| FetchBody (fr : fetchRequest.t).

Record requestInput : Type := {
  Path : string;
  Method : string;
  Body : requestBody
}.

(** The answer of [client.request]: an error, or the body of the response,
    the one field [base.go] reads.  [None] stands for bytes that are not a
    JSON text. *)
Definition client : Type := requestInput -> error + option json.

(** An operation of [Base]: run against a client, it gives its result and
    the requests it has sent, in order. *)
Definition call (A : Type) : Type := client -> outcome A * list requestInput.

Definition call_ret {A} (a : A) : call A := fun _ => (Ok a, []).

Definition call_bind {A B} (f : A -> call B) (m : call A) : call B :=
  fun c =>
    match m c with
    | (Ok a, sent) => let '(r, sent') := f a c in (r, (sent ++ sent')%list)
    | (Err e, sent) => (Err e, sent)
    | (Panic p, sent) => (Panic p, sent)
    end.

#[global] Instance call_mret : MRet call := @call_ret.
#[global] Instance call_mbind : MBind call := @call_bind.

(** A step that sends nothing. *)
Definition pure {A} (o : outcome A) : call A := fun _ => (o, []).

(** [b.client.request(&requestInput{...})]. *)
Definition request (req : requestInput) : call (option json) :=
  fun c =>
    (match c req with
     | inl e => Err e
     | inr body => Ok body
     end, [req]).

Definition result {A} (m : call A) (c : client) : outcome A := (m c).1.
Definition sent {A} (m : call A) (c : client) : list requestInput := (m c).2.

(** ** Put *)

Record putResponse : Type := {
  Processed : option (gmap string (list baseItem));
  Failed : option (gmap string (list baseItem))
}.

Definition syntaxError : string := "invalid character looking for beginning of value".

(** The member of an object that a struct field tagged [name] receives. *)
Definition member (name : string) (fs : list (string * json)) : option json :=
  fieldsToMap fs !! name.

Fixpoint unmarshalEntries (fs : list (string * json))
  : string + list (string * list baseItem) :=
  match fs with
  | [] => inr []
  | (k, j) :: fs' =>
      match unmarshalBaseItems j, unmarshalEntries fs' with
      | inl d, _ => inl d
      | inr _, inl d => inl d
      | inr bis, inr es => inr ((k, bis) :: es)
      end
  end.

(** Decoding into a field of type [map[string][]baseItem]. *)
Definition unmarshalItemsMap (j : option json)
  : string + option (gmap string (list baseItem)) :=
  match j with
  | None | Some JNull => inr None
  | Some (JObj fs) =>
      match unmarshalEntries fs with
      | inl d => inl d
      | inr es => inr (Some (foldl (fun m e => <[e.1 := e.2]> m) ∅ es))
      end
  | Some j => inl (typeError j "map[string][]deta.baseItem")
  end.

(** [json.Unmarshal(o.Body, &pr)] for [var pr putResponse]. *)
Definition unmarshalPutResponse (body : option json) : string + putResponse :=
  match body with
  | None => inl syntaxError
  | Some JNull => inr {| Processed := None; Failed := None |}
  | Some (JObj fs) =>
      match unmarshalItemsMap (member "processed" fs),
            unmarshalItemsMap (member "failed" fs) with
      | inl d, _ => inl d
      | inr _, inl d => inl d
      | inr p, inr f => inr {| Processed := p; Failed := f |}
      end
  | Some j => inl (typeError j "deta.putResponse")
  end.

(** [m["items"]] on a map of slices: the nil slice when the map is nil or
    has no such entry. *)
Definition itemsOf (m : option (gmap string (list baseItem))) : list baseItem :=
  default [] (m ≫= (fun m => m !! "items")).

(** [item["key"].(string)]. *)
Definition keyString (item : baseItem) : outcome string :=
  match itemLookup "key" item with
  | Some (JStr s) => Ok s
  | _ => Panic InterfaceConversion
  end.

Definition put (items : list baseItem) : call (list string) :=
  o ← request {| Path := "/items"; Method := "PUT"; Body := PutBody items |};
  pure (match unmarshalPutResponse o with
        | inl d => Err (ErrJSON d)
        | inr pr => forM keyString (itemsOf (Processed pr))
        end).

Definition Put (item : goValue) : call string :=
  match item with
  | GoNil => pure (Ok "")
  | _ =>
      let items := GoSlice [item] in
      modifiedItems ← pure (modifyItems items);
      putKeys ← put modifiedItems;
      pure (match putKeys with
            | k :: _ => Ok k
            | [] => Panic IndexOutOfRange
            end)
  end.

Definition PutMany (items : goValue) : call (list string) :=
  modifiedItems ← pure (modifyItems items);
  if (length modifiedItems =? 0)%nat then pure (Ok [])
  else if (25 <? length modifiedItems)%nat then pure (Err ErrTooManyItems)
  else put modifiedItems.

(** ** Insert *)

Definition Insert (item : goValue) : call string :=
  modifiedItem ← pure (modifyItem item);
  let ir := {| Item := modifiedItem |} in
  o ← request {| Path := "/items"; Method := "POST"; Body := InsertBody ir |};
  pure (match o with
        | None => Err (ErrJSON syntaxError)
        | Some j =>
            match unmarshalBaseItem j with
            | inl d => Err (ErrJSON d)
            | inr bi => keyString bi
            end
        end).

(** ** Writing JSON: what the client puts on the wire *)

Definition dquote : ascii := "034"%char.
Definition backslash : ascii := "092"%char.

Definition hexDigit (n : N) : ascii :=
  if (n <? 10)%N then ascii_of_N (48 + n) else ascii_of_N (87 + n).

(** One byte of a string, as [encoding/json] writes it in Go 1.13, the
    version the repository is tested with (HTML escaping is on).  Bytes
    from 128 up are copied: a string is taken to be valid UTF-8 without
    U+2028 and U+2029. *)
Definition escapeByte (c : ascii) : string :=
  let n := N_of_ascii c in
  if (n =? 34)%N || (n =? 92)%N then String backslash (String c "")
  else if (n =? 10)%N then String backslash "n"
  else if (n =? 13)%N then String backslash "r"
  else if (n =? 9)%N then String backslash "t"
  else if (n <? 32)%N || (n =? 60)%N || (n =? 62)%N || (n =? 38)%N
  then String backslash "u00" +:+ String (hexDigit (n / 16)) (String (hexDigit (n mod 16)) "")
  else String c "".

Fixpoint escape (s : string) : string :=
  match s with
  | EmptyString => ""
  | String c s' => escapeByte c +:+ escape s'
  end.

Definition quoted (s : string) : string :=
  String dquote (escape s) +:+ String dquote "".

Fixpoint commaSep (l : list string) : string :=
  match l with
  | [] => ""
  | [s] => s
  | s :: l' => s +:+ "," +:+ commaSep l'
  end.

Fixpoint render (j : json) : string :=
  match j with
  | JNull => "null"
  | JBool true => "true"
  | JBool false => "false"
  | JNum n => pretty n
  | JStr s => quoted s
  | JArr l => "[" +:+ commaSep (List.map render l) +:+ "]"
  | JObj fs =>
      "{" +:+ commaSep (List.map (fun f => let '(k, v) := f in
                                           quoted k +:+ ":" +:+ render v) fs) +:+ "}"
  end.

(** A Go map is written with its keys sorted. *)
Definition sortFields (fs : list (string * json)) : list (string * json) :=
  merge_sort (fun a b => String.le a.1 b.1) fs.

Definition marshalMap (m : gmap string json) : json :=
  JObj (sortFields (map_to_list m)).

Definition marshalItem (bi : baseItem) : json :=
  match bi with
  | None => JNull
  | Some m => marshalMap m
  end.

Definition marshalUpdateRequest (ur : updateRequest) : json :=
  JObj [ ("set", marshalMap (Set_ ur));
         ("trim", match Trim ur with
                  | [] => JNull
                  | ks => JArr (JStr <$> ks)
                  end);
         ("append", marshalMap (Append ur));
         ("prepend", marshalMap (Prepend ur));
         ("increment", marshalMap (Increment ur)) ].

Definition marshalFetchRequest (fr : fetchRequest.t) : json :=
  JObj ([ ("query", match fetchRequest.Query fr with
                    | None => JNull
                    | Some groups => JArr (marshalMap <$> groups)
                    end) ]
        ++ match fetchRequest.Last fr with Some l => [("last", JStr l)] | None => [] end
        ++ match fetchRequest.Limit fr with Some n => [("limit", JNum n)] | None => [] end)%list.

Definition marshalBody (b : requestBody) : option json :=
  match b with
  | NoBody => None
  | PutBody items => Some (JObj [("items", JArr (marshalItem <$> items))])
  | InsertBody ir => Some (JObj [("item", marshalItem (Item ir))])
  | UpdateBody ur => Some (marshalUpdateRequest ur)
  | FetchBody fr => Some (marshalFetchRequest fr)
  end.

(** The text of a request's body. *)
Definition wire (req : requestInput) : option string :=
  render <$> marshalBody (Body req).

(** [url.PathEscape]. *)
Definition shouldEscape (c : ascii) : bool :=
  let n := N_of_ascii c in
  if ((97 <=? n) && (n <=? 122) || (65 <=? n) && (n <=? 90)
      || (48 <=? n) && (n <=? 57))%N then false
  else if ((n =? 45) || (n =? 95) || (n =? 46) || (n =? 126))%N then false
  else if ((n =? 36) || (n =? 38) || (n =? 43) || (n =? 58) || (n =? 61)
           || (n =? 64))%N then false
  else true.

Definition upperHexDigit (n : N) : ascii :=
  if (n <? 10)%N then ascii_of_N (48 + n) else ascii_of_N (55 + n).

Fixpoint pathEscape (s : string) : string :=
  match s with
  | EmptyString => ""
  | String c s' =>
      (if shouldEscape c
       then let n := N_of_ascii c in
            String "%" (String (upperHexDigit (n / 16))
                          (String (upperHexDigit (n mod 16)) ""))
       else String c "") +:+ pathEscape s'
  end.

(** ** Update *)

(** Modelled from the spec: the values of an [Updates] map.  The types
    [trimUtil], [appendUtil], [prependUtil] and [incrementUtil] that
    [updatesToUpdateRequest] switches on are declared outside [base.go];
    section 9 of the specification gives them as
    [Replace(value) | Trim | Append(value) | Prepend(value) |
    Increment(number)].  [Plain v] is any value of another type, given by
    its JSON encoding. *)
Inductive updateValue : Type :=
| Plain (v : json)
| TrimUtil
| AppendUtil (value : json)
| PrependUtil (value : json)
| IncrementUtil (value : json).

Abbreviation Updates := (gmap string updateValue).

Definition emptyUpdateRequest : updateRequest :=
  {| Set_ := ∅; Trim := []; Append := ∅; Prepend := ∅; Increment := ∅ |}.

(** The body of the loop of [updatesToUpdateRequest]. *)
Definition updateStep (updateReq : updateRequest) (kv : string * updateValue)
  : updateRequest :=
  let '(k, v) := kv in
  match v with
  | TrimUtil =>
      {| Set_ := Set_ updateReq; Trim := Trim updateReq ++ [k];
         Append := Append updateReq; Prepend := Prepend updateReq;
         Increment := Increment updateReq |}
  | AppendUtil value =>
      {| Set_ := Set_ updateReq; Trim := Trim updateReq;
         Append := <[k := value]> (Append updateReq); Prepend := Prepend updateReq;
         Increment := Increment updateReq |}
  | PrependUtil value =>
      {| Set_ := Set_ updateReq; Trim := Trim updateReq;
         Append := Append updateReq; Prepend := <[k := value]> (Prepend updateReq);
         Increment := Increment updateReq |}
  | IncrementUtil value =>
      {| Set_ := Set_ updateReq; Trim := Trim updateReq;
         Append := Append updateReq; Prepend := Prepend updateReq;
         Increment := <[k := value]> (Increment updateReq) |}
  | Plain v =>
      {| Set_ := <[k := v]> (Set_ updateReq); Trim := Trim updateReq;
         Append := Append updateReq; Prepend := Prepend updateReq;
         Increment := Increment updateReq |}
  end.

Section Range.

(** [for k, v := range updates]: Go visits every entry of the map once, in
    an order it does not fix. *)
Variable rangeOrder : Updates -> list (string * updateValue).
Hypothesis rangeOrder_perm : forall m, rangeOrder m ≡ₚ map_to_list m.

Definition updatesToUpdateRequest (updates : Updates) : updateRequest :=
  foldl updateStep emptyUpdateRequest (rangeOrder updates).

Definition Update (key : string) (updates : Updates) : call unit :=
  let escapedKey := pathEscape key in
  let ur := updatesToUpdateRequest updates in
  _ ← request {| Path := "/items/" +:+ escapedKey; Method := "PATCH";
                 Body := UpdateBody ur |};
  pure (Ok tt).

End Range.

(** ** Delete *)

Definition Delete (key : string) : call unit :=
  let escapedKey := pathEscape key in
  _ ← request {| Path := "/items/" +:+ escapedKey; Method := "DELETE";
                 Body := NoBody |};
  pure (Ok tt).

(** ** Destinations *)

(** [json.Unmarshal(data, &dest)] for a [dest interface{}] of the caller: a
    destination of contents [D] takes a document and gives its new contents,
    or the text of the decoding error.  What a failed decoding leaves in the
    destination is not modelled. *)
Class Destination (D : Type) : Type :=
  unmarshalDest : json -> D -> string + D.

(** A [*[]interface{}]: any array fits, [null] leaves it as it is. *)
#[global] Instance anySliceDest : Destination (list json) :=
  fun data dest =>
    match data with
    | JNull => inr dest
    | JArr l => inr l
    | _ => inl (typeError data "[]interface {}")
    end.

Fixpoint unmarshalStrings (l : list json) : string + list string :=
  match l with
  | [] => inr []
  | j :: l' =>
      match j, unmarshalStrings l' with
      | JStr s, inr ss => inr (s :: ss)
      | JNull, inr ss => inr ("" :: ss)
      | JStr _, inl d | JNull, inl d => inl d
      | _, _ => inl (typeError j "string")
      end
  end.

(** A [*[]string]. *)
#[global] Instance stringSliceDest : Destination (list string) :=
  fun data dest =>
    match data with
    | JNull => inr dest
    | JArr l => unmarshalStrings l
    | _ => inl (typeError data "[]string")
    end.

(** A [*map[string]interface{}]; decoding an object adds its members to the
    map that is there. *)
#[global] Instance itemDest : Destination baseItem :=
  fun data dest =>
    match data with
    | JNull => inr dest
    | JObj fs => inr (Some (foldl (fun m f => <[f.1 := f.2]> m) (default ∅ dest) fs))
    | _ => inl (typeError data "map[string]interface {}")
    end.

(** ** Get *)

Definition Get {D} `{Destination D} (key : string) (dest : D) : call D :=
  let escapedKey := pathEscape key in
  o ← request {| Path := "/items/" +:+ escapedKey; Method := "GET";
                 Body := NoBody |};
  pure (match o with
        | None => Err (Wrapf ErrBadDestination syntaxError)
        | Some j =>
            match unmarshalDest j dest with
            | inl d => Err (Wrapf ErrBadDestination d)
            | inr dest' => Ok dest'
            end
        end).

(** ** Fetch *)

Module paging.
Record t : Type := {
  Size : Z;
  Last : option string
}.
End paging.

Module fetchResponse.
Record t : Type := {
  Paging : option paging.t;
  Items : option (list json)
}.
End fetchResponse.

(** Decoding into an [int] field: a number that does not fit is a type
    error. *)
Definition unmarshalInt (j : option json) : string + Z :=
  match j with
  | None | Some JNull => inr 0
  | Some (JNum n) =>
      if ((-2 ^ 63 <=? n) && (n <? 2 ^ 63))%Z then inr n
      else inl (typeError (JNum n) "int")
  | Some j => inl (typeError j "int")
  end.

(** Decoding into a [*string] field. *)
Definition unmarshalStringPtr (j : option json) : string + option string :=
  match j with
  | None | Some JNull => inr None
  | Some (JStr s) => inr (Some s)
  | Some j => inl (typeError j "string")
  end.

(** Decoding into a [*paging] field. *)
Definition unmarshalPaging (j : option json) : string + option paging.t :=
  match j with
  | None | Some JNull => inr None
  | Some (JObj fs) =>
      match unmarshalInt (member "size" fs),
            unmarshalStringPtr (member "last" fs) with
      | inl d, _ => inl d
      | inr _, inl d => inl d
      | inr size, inr last => inr (Some {| paging.Size := size; paging.Last := last |})
      end
  | Some j => inl (typeError j "deta.paging")
  end.

(** Decoding into a [[]interface{}] field. *)
Definition unmarshalAnySlice (j : option json) : string + option (list json) :=
  match j with
  | None | Some JNull => inr None
  | Some (JArr l) => inr (Some l)
  | Some j => inl (typeError j "[]interface {}")
  end.

(** [json.Unmarshal(o.Body, &fr)] for [var fr fetchResponse]. *)
Definition unmarshalFetchResponse (body : option json) : string + fetchResponse.t :=
  match body with
  | None => inl syntaxError
  | Some JNull => inr {| fetchResponse.Paging := None; fetchResponse.Items := None |}
  | Some (JObj fs) =>
      match unmarshalPaging (member "paging" fs),
            unmarshalAnySlice (member "items" fs) with
      | inl d, _ => inl d
      | inr _, inl d => inl d
      | inr p, inr its =>
          inr {| fetchResponse.Paging := p; fetchResponse.Items := its |}
      end
  | Some j => inl (typeError j "deta.fetchResponse")
  end.

Definition fetch (req : fetchRequest.t) : call fetchResponse.t :=
  o ← request {| Path := "/query"; Method := "POST"; Body := FetchBody req |};
  pure (match unmarshalFetchResponse o with
        | inl d => Err (ErrJSON d)
        | inr fr => Ok fr
        end).

(** [json.Marshal(res.Items)]: the items came out of a JSON text, writing
    them back cannot fail. *)
Definition marshalAnySlice (items : option (list json)) : json :=
  match items with
  | None => JNull
  | Some l => JArr l
  end.

(** The request [Fetch] builds: [req.Last] is left at its zero value. *)
Definition fetchRequestOf (query : Query) (limit : Z) : fetchRequest.t :=
  {| fetchRequest.Query := query;
     fetchRequest.Last := None;
     fetchRequest.Limit := if (0 <? limit)%Z then Some limit else None |}.

(** [Fetch] fills [dest] and returns the last key: both are its result
    here. *)
Definition Fetch {D} `{Destination D} (query : Query) (dest : D) (limit : Z)
  : call (D * string) :=
  let req := fetchRequestOf query limit in
  res ← fetch req;
  let data := marshalAnySlice (fetchResponse.Items res) in
  dest' ← pure (match unmarshalDest data dest with
                | inl d => Err (Wrapf ErrBadDestination d)
                | inr dest' => Ok dest'
                end);
  lastKey ← pure (match fetchResponse.Paging res with
                  | None => Panic NilDereference
                  | Some p => Ok (default "" (paging.Last p))
                  end);
  pure (Ok (dest', lastKey)).

(** ** newBase *)

Record authInfo : Type := {
  authType : string;
  headerKey : string;
  headerValue : string
}.

(** [strings.Split(s, sep)] for a separator of one byte: the pieces of [s]
    between the separators, one more than there are separators. *)
Fixpoint split (sep : ascii) (s : string) : list string :=
  match s with
  | EmptyString => [""]
  | String c s' =>
      if decide (c = sep) then "" :: split sep s'
      else match split sep s' with
           | p :: ps => String c p :: ps
           | [] => [String c ""]
           end
  end.

(** What [newBase] hands to [newDetaClient], which is not part of
    [base.go]: the root endpoint of the base and the authentication. *)
Record clientConfig : Type := {
  endpoint : string;
  auth : authInfo
}.

Definition newBase (projectKey baseName rootEndpoint : string)
  : outcome clientConfig :=
  let parts := split "_" projectKey in
  projectID ← match parts with
              | p :: _ => Ok p
              | [] => Panic IndexOutOfRange
              end;
  let rootEndpoint := rootEndpoint +:+ "/" +:+ projectID +:+ "/" +:+ baseName in
  Ok {| endpoint := rootEndpoint;
        auth := {| authType := "api-key";
                   headerKey := "X-API-Key";
                   headerValue := projectKey |} |}.

(** * Vocabulary of the properties *)

(** ** Normalisation *)

(** [json.Marshal] on the elements of a slice, one after the other. *)
Fixpoint marshalList (vs : list goValue) : option (list json) :=
  match vs with
  | [] => Some []
  | x :: l' =>
      match marshal x, marshalList l' with
      | Some j, Some js => Some (j :: js)
      | _, _ => None
      end
  end.

(** ** Put *)

(** The request of [put]. *)
Definition putRequest (items : list baseItem) : requestInput :=
  {| Path := "/items"; Method := "PUT"; Body := PutBody items |}.

(** What [put] makes of the answer to its request. *)
Definition putKeys (answer : error + option json) : outcome (list string) :=
  match answer with
  | inl e => Err e
  | inr body =>
      match unmarshalPutResponse body with
      | inl d => Err (ErrJSON d)
      | inr pr => forM keyString (itemsOf (Processed pr))
      end
  end.

(** [putKeys[0]] in [Put], after the error check. *)
Definition firstKey (r : outcome (list string)) : outcome string :=
  match r with
  | Ok (k :: _) => Ok k
  | Ok [] => Panic IndexOutOfRange
  | Err e => Err e
  | Panic p => Panic p
  end.

(** The item has a string under [key]. *)
Definition hasStringKey (it : baseItem) : Prop :=
  exists s, itemLookup "key" it = Some (JStr s).

(** C10 as it is worded: once the processed items hold at least one item
    with a string key, [Put] cannot panic. *)
Definition Put_one_string_key_suffices (c : client) (item : goValue) : Prop :=
  forall mis body pr,
    modifyItems (GoSlice [item]) = Ok mis ->
    c (putRequest mis) = inr body ->
    unmarshalPutResponse body = inr pr ->
    Exists hasStringKey (itemsOf (Processed pr)) ->
    ~ is_Panic (result (Put item) c).

(** ** Fetch *)

(** The request of [Fetch]. *)
Definition queryRequest (query : Query) (limit : Z) : requestInput :=
  {| Path := "/query"; Method := "POST";
     Body := FetchBody (fetchRequestOf query limit) |}.

(** What [Fetch] makes of the answer to its request. *)
Definition fetched {D} `{Destination D} (dest : D) (answer : error + option json)
  : outcome (D * string) :=
  match answer with
  | inl e => Err e
  | inr body =>
      match unmarshalFetchResponse body with
      | inl d => Err (ErrJSON d)
      | inr res =>
          match unmarshalDest (marshalAnySlice (fetchResponse.Items res)) dest with
          | inl d => Err (Wrapf ErrBadDestination d)
          | inr dest' =>
              match fetchResponse.Paging res with
              | None => Panic NilDereference
              | Some p => Ok (dest', default "" (paging.Last p))
              end
          end
      end
  end.

(** C5 as it is worded: the cursor of a successful [Fetch] is empty if and
    only if the decoded paging has no last key. *)
Definition cursor_empty_iff_last_absent {D} `{Destination D}
    (c : client) (query : Query) (dest : D) (limit : Z) : Prop :=
  forall body res p dest' cursor,
    c (queryRequest query limit) = inr body ->
    unmarshalFetchResponse body = inr res ->
    fetchResponse.Paging res = Some p ->
    result (Fetch query dest limit) c = Ok (dest', cursor) ->
    (cursor = "" <-> paging.Last p = None).

(** C9 as it is worded: a [Fetch] whose request went through and whose
    answer decodes with a nil [Paging] panics. *)
Definition Fetch_panics_without_paging {D} `{Destination D}
    (c : client) (query : Query) (dest : D) (limit : Z) : Prop :=
  forall body res,
    c (queryRequest query limit) = inr body ->
    unmarshalFetchResponse body = inr res ->
    fetchResponse.Paging res = None ->
    is_Panic (result (Fetch query dest limit) c).

(** ** The paging scenario *)

(** The response to a query, as the service writes it:
    [{"paging": {"size": n, "last": key}, "items": [...]}], [last] being
    left out on the last page. *)
Definition pageDoc (size : Z) (last : option string) (items : list json) : json :=
  JObj [("paging",
         JObj (("size", JNum size)
               :: match last with Some l => [("last", JStr l)] | None => [] end));
        ("items", JArr items)].

Definition itemKey (m : gmap string json) : string :=
  match m !! "key" with
  | Some (JStr s) => s
  | _ => ""
  end.

(** The items that follow the one whose key is [last]. *)
Fixpoint afterKey (last : string) (items : list (gmap string json))
  : list (gmap string json) :=
  match items with
  | [] => []
  | it :: rest => if decide (itemKey it = last) then rest else afterKey last rest
  end.

(** A stand-in for the remote service, used to run the scenario.  It keeps
    a list of items and answers a query request as the wire shapes of the
    specification say: the page starts after the item whose key is [last],
    holds at most [limit] items, and carries a last key when items remain.
    The query itself is not looked at (the scenario's is nil). *)
Definition queryService (collection : list (gmap string json)) : client :=
  fun req =>
    match Body req with
    | FetchBody fr =>
        let rest := match fetchRequest.Last fr with
                    | Some l => afterKey l collection
                    | None => collection
                    end in
        let n := match fetchRequest.Limit fr with
                 | Some n => Z.to_nat n
                 | None => length rest
                 end in
        let page := take n rest in
        let cursor := match drop n rest with
                      | [] => None
                      | _ :: _ => itemKey <$> last page
                      end in
        inr (Some (pageDoc (Z.of_nat (length page)) cursor (marshalMap <$> page)))
    | _ => inl (ErrTransport "unexpected request")
    end.

(** Fifteen items, with the keys [k1] to [k15]. *)
Definition collection15 : list (gmap string json) :=
  (fun i : nat => {[ "key" := JStr ("k" +:+ pretty i) ]}) <$> seq 1 15.

Definition first10 : list json := marshalMap <$> take 10 collection15.

Definition remaining5 : list json := marshalMap <$> drop 10 collection15.

(** The size of the page the stand-in serves to a request of [Fetch]. *)
Definition firstPageSize (collection : list (gmap string json)) (limit : Z) : nat :=
  if (0 <? limit)%Z then Z.to_nat limit else length collection.

(** ** The update encoder *)

Inductive bucket : Type := BSet | BTrim | BAppend | BPrepend | BIncrement.

#[global] Instance bucket_eq_dec : EqDecision bucket.
Proof. solve_decision. Defined.

(** The bucket a value's tag names. *)
Definition tagBucket (v : updateValue) : bucket :=
  match v with
  | Plain _ => BSet
  | TrimUtil => BTrim
  | AppendUtil _ => BAppend
  | PrependUtil _ => BPrepend
  | IncrementUtil _ => BIncrement
  end.

(** The value a tagged entry leaves in its bucket ([Trim] keeps names
    only). *)
Definition payload (b : bucket) (v : updateValue) : option json :=
  match b, v with
  | BSet, Plain x => Some x
  | BAppend, AppendUtil x => Some x
  | BPrepend, PrependUtil x => Some x
  | BIncrement, IncrementUtil x => Some x
  | _, _ => None
  end.

(** The name an entry adds to the trim list. *)
Definition trimmed (kv : string * updateValue) : option string :=
  match kv.2 with
  | TrimUtil => Some kv.1
  | _ => None
  end.

(** The four map buckets of a request. *)
Definition mapBucket (b : bucket) (ur : updateRequest) : gmap string json :=
  match b with
  | BSet => Set_ ur
  | BTrim => ∅
  | BAppend => Append ur
  | BPrepend => Prepend ur
  | BIncrement => Increment ur
  end.

(** The field [k] is in bucket [b] of the request. *)
Definition inBucket (ur : updateRequest) (b : bucket) (k : string) : Prop :=
  match b with
  | BTrim => k ∈ Trim ur
  | _ => is_Some (mapBucket b ur !! k)
  end.

(** The names in the five buckets. *)
Definition bucketNames (ur : updateRequest) : gset string :=
  dom (Set_ ur) ∪ list_to_set (Trim ur) ∪ dom (Append ur) ∪ dom (Prepend ur)
  ∪ dom (Increment ur).

(** A name between double quotes, as it stands in a JSON text. *)
Definition inQuotes (s : string) : string :=
  String dquote s +:+ String dquote "".

(** The update set of the scenario: [{"count": increment(1), "tag": trim()}]. *)
Definition scenarioUpdates : Updates :=
  <["count" := IncrementUtil (JNum 1)]> (<["tag" := TrimUtil]> ∅).

(** The text [{"set":{},"trim":["tag"],"append":{},"prepend":{},"increment":{"count":1}}]. *)
Definition scenarioWire : string :=
  "{" +:+ inQuotes "set" +:+ ":{},"
      +:+ inQuotes "trim" +:+ ":[" +:+ inQuotes "tag" +:+ "],"
      +:+ inQuotes "append" +:+ ":{},"
      +:+ inQuotes "prepend" +:+ ":{},"
      +:+ inQuotes "increment" +:+ ":{" +:+ inQuotes "count" +:+ ":1}}".

(** The text [{"query":null,"limit":10}]. *)
Definition scenarioQueryWire : string :=
  "{" +:+ inQuotes "query" +:+ ":null," +:+ inQuotes "limit" +:+ ":10}".

(** The text [{"items":[{"name":"a"}]}]. *)
Definition scenarioPutWire : string :=
  "{" +:+ inQuotes "items" +:+ ":[{" +:+ inQuotes "name" +:+ ":"
      +:+ inQuotes "a" +:+ "}]}".

(** ** Further vocabulary: items *)

(** The [key] of the item is fit to be sent: there is none, or it is a
    string other than the empty one. *)
Definition keyClean (bi : baseItem) : Prop :=
  match itemLookup "key" bi with
  | None => True
  | Some (JStr s) => s <> ""
  | Some _ => False
  end.

(** ** Further vocabulary: requests *)

(** The request of [Insert]. *)
Definition insertRequestOf (bi : baseItem) : requestInput :=
  {| Path := "/items"; Method := "POST"; Body := InsertBody {| Item := bi |} |}.

(** What [Insert] makes of the answer to its request. *)
Definition inserted (answer : error + option json) : outcome string :=
  match answer with
  | inl e => Err e
  | inr None => Err (ErrJSON syntaxError)
  | inr (Some j) =>
      match unmarshalBaseItem j with
      | inl d => Err (ErrJSON d)
      | inr bi => keyString bi
      end
  end.

(** The requests of [Get], [Delete] and [Update]. *)
Definition getRequest (key : string) : requestInput :=
  {| Path := "/items/" +:+ pathEscape key; Method := "GET"; Body := NoBody |}.

Definition deleteRequest (key : string) : requestInput :=
  {| Path := "/items/" +:+ pathEscape key; Method := "DELETE"; Body := NoBody |}.

Definition patchRequest (rangeOrder : Updates -> list (string * updateValue))
    (key : string) (updates : Updates) : requestInput :=
  {| Path := "/items/" +:+ pathEscape key; Method := "PATCH";
     Body := UpdateBody (updatesToUpdateRequest rangeOrder updates) |}.

(** What [Get] makes of the answer to its request. *)
Definition got {D} `{Destination D} (dest : D) (answer : error + option json)
  : outcome D :=
  match answer with
  | inl e => Err e
  | inr None => Err (Wrapf ErrBadDestination syntaxError)
  | inr (Some j) =>
      match unmarshalDest j dest with
      | inl d => Err (Wrapf ErrBadDestination d)
      | inr dest' => Ok dest'
      end
  end.

(** What [Update] and [Delete] make of the answer: the body is not read. *)
Definition acknowledged (answer : error + option json) : outcome unit :=
  match answer with
  | inl e => Err e
  | inr _ => Ok tt
  end.

(** ** Further vocabulary: the update encoder *)

(** The number of names in the five buckets, each counted where it is. *)
Definition bucketCount (ur : updateRequest) : nat :=
  size (Set_ ur) + length (Trim ur) + size (Append ur) + size (Prepend ur)
  + size (Increment ur).

(** The text [{"set":{},"trim":null,"append":{},"prepend":{},"increment":{}}]. *)
Definition emptyUpdateWire : string :=
  "{" +:+ inQuotes "set" +:+ ":{},"
      +:+ inQuotes "trim" +:+ ":null,"
      +:+ inQuotes "append" +:+ ":{},"
      +:+ inQuotes "prepend" +:+ ":{},"
      +:+ inQuotes "increment" +:+ ":{}}".

(** ** Further vocabulary: paths *)

(** What [pathEscape] writes for one byte. *)
Definition escapedByte (c : ascii) : string :=
  if shouldEscape c
  then let n := N_of_ascii c in
       String "%" (String (upperHexDigit (n / 16))
                     (String (upperHexDigit (n mod 16)) ""))
  else String c "".

(** The value of a hexadecimal digit in upper case. *)
Definition unhexDigit (a : ascii) : N :=
  let n := N_of_ascii a in
  if (n <? 58)%N then (n - 48)%N else (n - 55)%N.

(** The bytes an escaped path segment is made of: those [pathEscape]
    leaves as they are, and the percent sign. *)
Definition segmentByte (c : ascii) : bool :=
  negb (shouldEscape c) || (N_of_ascii c =? 37)%N.

(** The string is made of such bytes. *)
Fixpoint allSegment (s : string) : bool :=
  match s with
  | EmptyString => true
  | String a s' => segmentByte a && allSegment s'
  end.

(** The byte occurs in the string. *)
Fixpoint occurs (c : ascii) (s : string) : Prop :=
  match s with
  | EmptyString => False
  | String a s' => a = c \/ occurs c s'
  end.

(** The texts [{"item":null}] and [{"items":[null]}]. *)
Definition nullItemWire : string := "{" +:+ inQuotes "item" +:+ ":null}".

Definition nullItemsWire : string := "{" +:+ inQuotes "items" +:+ ":[null]}".

(** * Properties *)

(** ** Normalisation *)

Lemma marshal_GoSlice vs : marshal (GoSlice vs) = JArr <$> marshalList vs.
Proof.
  reflexivity.
Qed.

(** [modifyItems] on a slice, stage by stage. *)
Lemma modifyItems_GoSlice vs :
  modifyItems (GoSlice vs) =
  match marshalList vs with
  | None => Err ErrBadItem
  | Some js =>
      match unmarshalElems js with
      | inl detail => Err (Wrapf ErrBadItem detail)
      | inr bi => forM removeEmptyKey bi
      end
  end.
Proof.
  unfold modifyItems. rewrite marshal_GoSlice.
  by destruct (marshalList vs).
Qed.

Lemma forM_cons {A B} (f : A -> outcome B) a l :
  forM f (a :: l) = b ← f a; bs ← forM f l; Ok (b :: bs).
Proof. done. Qed.

Lemma forM_Ok {A B} (f : A -> outcome B) l bs :
  forM f l = Ok bs <-> Forall2 (fun a b => f a = Ok b) l bs.
Proof.
  revert bs. induction l as [|a l IH]; intros bs; simpl.
  - split; [intros [= <-]; constructor | by inversion 1].
  - destruct (f a) as [b| |] eqn:Ha; simpl.
    + destruct (forM f l) as [bs'| |] eqn:Hl; simpl.
      * split.
        -- intros [= <-]. constructor; [done|]. by apply IH.
        -- inversion 1 as [|? b' ? bs'' Hb Hbs]; subst.
           apply IH in Hbs. congruence.
      * split; [done|]. inversion 1 as [|? ? ? bs'' _ Hbs]; subst.
        by apply IH in Hbs.
      * split; [done|]. inversion 1 as [|? ? ? bs'' _ Hbs]; subst.
        by apply IH in Hbs.
    + split; [done|]. inversion 1; congruence.
    + split; [done|]. inversion 1; congruence.
Qed.

Lemma removeEmptyKey_no_panic bi p : removeEmptyKey bi <> Panic p.
Proof. unfold removeEmptyKey. by repeat case_match. Qed.

Lemma modifyItem_no_panic v p : modifyItem v <> Panic p.
Proof.
  unfold modifyItem. repeat case_match; try done.
  apply removeEmptyKey_no_panic.
Qed.

Lemma forM_removeEmptyKey_no_panic bis p : forM removeEmptyKey bis <> Panic p.
Proof.
  induction bis as [|bi bis IH]; [done|]. simpl.
  destruct (removeEmptyKey bi) eqn:Hbi; simpl; [|done|].
  - destruct (forM removeEmptyKey bis); simpl; [done|done|]. congruence.
  - by apply removeEmptyKey_no_panic in Hbi.
Qed.

Lemma modifyItems_no_panic v p : modifyItems v <> Panic p.
Proof.
  unfold modifyItems. repeat case_match; try done.
  apply forM_removeEmptyKey_no_panic.
Qed.

(** Every error of the normaliser is a [BadItem]. *)
Lemma removeEmptyKey_BadItem bi e :
  removeEmptyKey bi = Err e -> errorsIs e ErrBadItem.
Proof.
  unfold removeEmptyKey. repeat case_match; intros [= <-]; simpl; auto.
Qed.

Lemma modifyItem_BadItem v e : modifyItem v = Err e -> errorsIs e ErrBadItem.
Proof.
  unfold modifyItem. repeat case_match; try (intros [= <-]; simpl; by auto).
  apply removeEmptyKey_BadItem.
Qed.

Lemma forM_removeEmptyKey_BadItem bis e :
  forM removeEmptyKey bis = Err e -> errorsIs e ErrBadItem.
Proof.
  induction bis as [|bi bis IH]; [done|]. simpl.
  destruct (removeEmptyKey bi) eqn:Hbi; simpl.
  - destruct (forM removeEmptyKey bis); simpl; [done| |done].
    intros [= <-]. by apply IH.
  - intros [= <-]. by eapply removeEmptyKey_BadItem.
  - done.
Qed.

Lemma modifyItems_BadItem v e : modifyItems v = Err e -> errorsIs e ErrBadItem.
Proof.
  unfold modifyItems. repeat case_match; try (intros [= <-]; simpl; by auto).
  apply forM_removeEmptyKey_BadItem.
Qed.

(** The slice is normalised element by element. *)
Lemma modifyItems_cons_Ok v vs bs :
  modifyItems (GoSlice (v :: vs)) = Ok bs <->
  exists b bs', bs = b :: bs' /\ modifyItem v = Ok b /\
                modifyItems (GoSlice vs) = Ok bs'.
Proof.
  rewrite !modifyItems_GoSlice. unfold modifyItem. simpl.
  destruct (marshal v) as [j|]; [|naive_solver].
  destruct (marshalList vs) as [js|]; simpl.
  - destruct (unmarshalBaseItem j) as [d|bi]; [naive_solver|].
    destruct (unmarshalElems js) as [d|bis]; simpl.
    + destruct (removeEmptyKey bi); naive_solver.
    + destruct (removeEmptyKey bi); simpl; [|naive_solver..].
      destruct (forM removeEmptyKey bis); simpl; naive_solver.
  - destruct (unmarshalBaseItem j) as [d|bi]; [naive_solver|].
    destruct (removeEmptyKey bi); naive_solver.
Qed.

Lemma modifyItems_cons_Err v vs :
  is_Err (modifyItems (GoSlice (v :: vs))) <->
  is_Err (modifyItem v) \/ is_Err (modifyItems (GoSlice vs)).
Proof.
  rewrite !modifyItems_GoSlice. unfold modifyItem, is_Err. simpl.
  destruct (marshal v) as [j|]; [|naive_solver].
  destruct (marshalList vs) as [js|]; simpl.
  - destruct (unmarshalBaseItem j) as [d|bi]; [naive_solver|].
    destruct (unmarshalElems js) as [d|bis]; simpl; [naive_solver|].
    destruct (removeEmptyKey bi) eqn:Hbi; simpl; [|naive_solver|].
    + destruct (forM removeEmptyKey bis); simpl; naive_solver.
    + by apply removeEmptyKey_no_panic in Hbi.
  - destruct (unmarshalBaseItem j) as [d|bi]; naive_solver.
Qed.

Lemma modifyItems_slice_Ok vs bs :
  modifyItems (GoSlice vs) = Ok bs <->
  Forall2 (fun v b => modifyItem v = Ok b) vs bs.
Proof.
  revert bs. induction vs as [|v vs IH]; intros bs.
  - rewrite modifyItems_GoSlice. simpl.
    split; [intros [= <-]; constructor | by inversion 1].
  - rewrite modifyItems_cons_Ok. split.
    + intros (b & bs' & -> & Hv & Hvs). constructor; [done|]. by apply IH.
    + inversion 1 as [|? b ? bs' Hv Hvs]; subst.
      exists b, bs'. split_and!; [done..|]. by apply IH.
Qed.

Lemma modifyItems_slice_Err vs :
  is_Err (modifyItems (GoSlice vs)) <->
  Exists (fun v => is_Err (modifyItem v)) vs.
Proof.
  induction vs as [|v vs IH].
  - rewrite modifyItems_GoSlice. simpl. split.
    + by intros [e ?].
    + by inversion 1.
  - rewrite modifyItems_cons_Err, Exists_cons, IH. done.
Qed.

Lemma modifyItems_slice_length vs bs :
  modifyItems (GoSlice vs) = Ok bs -> length bs = length vs.
Proof.
  rewrite modifyItems_slice_Ok. intros H. symmetry. by eapply Forall2_length.
Qed.

Lemma modifyItem_object item fs :
  marshal item = Some (JObj fs) ->
  modifyItem item = removeEmptyKey (Some (fieldsToMap fs)).
Proof. unfold modifyItem. by intros ->. Qed.

(** When does [modifyItem] refuse a value: it cannot be marshalled, its
    encoding is neither an object nor [null], or its [key] is there and is
    not a string. *)
Lemma modifyItem_Err_iff item :
  is_Err (modifyItem item) <->
  marshal item = None
  \/ (exists j, marshal item = Some j /\
                match j with JObj _ | JNull => False | _ => True end)
  \/ (exists fs j, marshal item = Some (JObj fs) /\
                   fieldsToMap fs !! "key" = Some j /\ forall s, j <> JStr s).
Proof.
  unfold modifyItem, is_Err.
  destruct (marshal item) as [j|]; [|naive_solver].
  destruct j as [| | | | |fs]; simpl; try naive_solver.
  unfold removeEmptyKey, itemLookup; simpl.
  destruct (fieldsToMap fs !! "key") as [[]|] eqn:Hk;
    try case_decide; naive_solver.
Qed.

(** C1. A value that normalises into an item (its encoding is a JSON
    object): with the empty string as [key], the item comes out without
    its [key] field and otherwise unchanged; with a non-empty string as
    [key], the item comes out as it is, key included; with a [key] that is
    not a string, normalisation fails with a [BadItem] error and gives no
    item.  [Put] and [PutMany] normalise through [modifyItems], [Insert]
    through [modifyItem]: inside a slice the value is normalised to the
    same item, and its failure is the failure of the whole slice. *)
Theorem modifyItem_key_sanitised (item : goValue) (fs : list (string * json)) :
  marshal item = Some (JObj fs) ->
  let m := fieldsToMap fs in
  (m !! "key" = Some (JStr "") ->
     modifyItem item = Ok (Some (delete "key" m)) /\
     delete "key" m !! "key" = None)
  /\ (forall s, s <> "" -> m !! "key" = Some (JStr s) ->
        modifyItem item = Ok (Some m))
  /\ (forall j, m !! "key" = Some j -> (forall s, j <> JStr s) ->
        exists e, modifyItem item = Err e /\ errorsIs e ErrBadItem)
  /\ (forall (items : list goValue) bis (i : nat),
        items !! i = Some item -> modifyItems (GoSlice items) = Ok bis ->
        exists bi, bis !! i = Some bi /\ modifyItem item = Ok bi)
  /\ (forall (items : list goValue),
        item ∈ items -> is_Err (modifyItem item) ->
        exists e, modifyItems (GoSlice items) = Err e /\ errorsIs e ErrBadItem).
Proof.
  intros Hm m. pose proof (modifyItem_object _ _ Hm) as Hitem. fold m in Hitem.
  unfold removeEmptyKey, itemLookup, itemDelete in Hitem. simpl in Hitem.
  split_and!.
  - intros Hk. rewrite Hk, decide_True in Hitem by done.
    split; [done|]. apply lookup_delete_eq.
  - intros s Hs Hk. by rewrite Hk, decide_False in Hitem.
  - intros j Hk Hj. rewrite Hk in Hitem.
    destruct j; try (eexists; split; [done|]; simpl; by auto).
    by destruct (Hj s).
  - intros items bis i Hi Hok. apply modifyItems_slice_Ok in Hok.
    destruct (Forall2_lookup_l _ _ _ _ _ Hok Hi) as (bi & Hbi & Hbi').
    by exists bi.
  - intros items Hin Herr.
    destruct (proj2 (modifyItems_slice_Err items)) as [e He].
    { apply Exists_exists. by exists item. }
    exists e. split; [done|]. by eapply modifyItems_BadItem.
Qed.

Lemma modifyItem_key_sanitised_witness :
  modifyItem (GoJson (JObj [("key", JStr ""); ("name", JStr "a")]))
  = Ok (Some (delete "key" (fieldsToMap [("key", JStr ""); ("name", JStr "a")]))).
Proof.
  destruct (modifyItem_key_sanitised
              (GoJson (JObj [("key", JStr ""); ("name", JStr "a")]))
              [("key", JStr ""); ("name", JStr "a")] eq_refl) as [H _].
  apply H. vm_compute. reflexivity.
Defined.

(** C7. If one element of the list handed to [modifyItems] fails to
    normalise, the call as a whole returns an error (a [BadItem]) and no
    list: there is no partial result. *)
Theorem modifyItems_all_or_nothing (items : list goValue) :
  Exists (fun v => is_Err (modifyItem v)) items ->
  exists e, modifyItems (GoSlice items) = Err e /\ errorsIs e ErrBadItem.
Proof.
  intros H. apply modifyItems_slice_Err in H as [e He].
  exists e. split; [done|]. by eapply modifyItems_BadItem.
Qed.

Lemma modifyItems_all_or_nothing_witness :
  exists e,
    modifyItems (GoSlice [GoJson (JObj [("name", JStr "a")]);
                          GoJson (JObj [("key", JNum 7)]);
                          GoJson (JStr "b")]) = Err e
    /\ errorsIs e ErrBadItem.
Proof.
  apply modifyItems_all_or_nothing.
  apply Exists_cons_tl, Exists_cons_hd.
  eexists. vm_compute. reflexivity.
Defined.

(** ** Put, PutMany *)

Lemma put_run items c :
  put items c = (putKeys (c (putRequest items)), [putRequest items]).
Proof.
  unfold put, putKeys, putRequest, request, pure, mbind, call_mbind, call_bind.
  destruct (c _) as [e|body]; [done|].
  by destruct (unmarshalPutResponse body).
Qed.

Lemma Put_run item c :
  item <> GoNil ->
  Put item c =
  match modifyItems (GoSlice [item]) with
  | Ok mis => (firstKey (putKeys (c (putRequest mis))), [putRequest mis])
  | Err e => (Err e, [])
  | Panic p => (Panic p, [])
  end.
Proof.
  intros Hnil.
  assert (Put item =
          (modifiedItems ← pure (modifyItems (GoSlice [item]));
           putKeys ← put modifiedItems;
           pure (match putKeys with
                 | k :: _ => Ok k
                 | [] => Panic IndexOutOfRange
                 end))) as -> by by destruct item.
  unfold pure, mbind, call_mbind, call_bind.
  destruct (modifyItems (GoSlice [item])) as [mis| |]; [|done..].
  rewrite put_run. by destruct (putKeys _) as [[|k ks]| |].
Qed.

Lemma PutMany_run items c :
  PutMany items c =
  match modifyItems items with
  | Ok mis =>
      if (length mis =? 0)%nat then (Ok [], [])
      else if (25 <? length mis)%nat then (Err ErrTooManyItems, [])
      else (putKeys (c (putRequest mis)), [putRequest mis])
  | Err e => (Err e, [])
  | Panic p => (Panic p, [])
  end.
Proof.
  unfold PutMany, pure, mbind, call_mbind, call_bind.
  destruct (modifyItems items) as [mis| |]; [|done..].
  destruct (length mis =? 0)%nat; [done|].
  destruct (25 <? length mis)%nat; [done|].
  by rewrite put_run.
Qed.

Lemma modifyItems_slice_total items :
  Forall (fun v => is_Ok (modifyItem v)) items ->
  exists bis, modifyItems (GoSlice items) = Ok bis /\ length bis = length items.
Proof.
  intros H.
  assert (exists bis, Forall2 (fun v b => modifyItem v = Ok b) items bis) as [bis Hbis].
  { induction H as [|v vs [b Hb] _ [bs IH]]; [by exists []|].
    exists (b :: bs). by constructor. }
  exists bis. split; [by apply modifyItems_slice_Ok|].
  symmetry. by eapply Forall2_length.
Qed.

(** C3. [PutMany] with no item returns the nil list and no error and sends
    nothing.  With more than 25 values it sends nothing and fails, and for
    items (values that normalise) the error is [ErrTooManyItems].  With
    exactly 25 items it sends one request, the [PUT] of the 25 normalised
    items. *)
Theorem PutMany_batch_limits (c : client) (items : list goValue) :
  (length items = 0%nat -> PutMany (GoSlice items) c = (Ok [], []))
  /\ ((25 < length items)%nat ->
        sent (PutMany (GoSlice items)) c = [] /\
        is_Err (result (PutMany (GoSlice items)) c) /\
        (Forall (fun v => is_Ok (modifyItem v)) items ->
           PutMany (GoSlice items) c = (Err ErrTooManyItems, [])))
  /\ (length items = 25%nat ->
        Forall (fun v => is_Ok (modifyItem v)) items ->
        exists bis,
          modifyItems (GoSlice items) = Ok bis /\
          length bis = 25%nat /\
          sent (PutMany (GoSlice items)) c = [putRequest bis] /\
          Method (putRequest bis) = "PUT").
Proof.
  unfold sent, result. rewrite PutMany_run. split_and!.
  - intros Hlen. apply nil_length_inv in Hlen as ->. done.
  - intros Hlen.
    assert (forall bis, modifyItems (GoSlice items) = Ok bis ->
                        (length bis =? 0)%nat = false /\
                        (25 <? length bis)%nat = true) as Hbis.
    { intros bis Hbis. apply modifyItems_slice_length in Hbis. rewrite Hbis.
      split; [apply Nat.eqb_neq; lia | apply Nat.ltb_lt; lia]. }
    destruct (modifyItems (GoSlice items)) as [bis|e|p] eqn:Hmod.
    + destruct (Hbis bis eq_refl) as [-> ->]. split_and!; [done|by eexists|done].
    + split_and!; [done|by eexists|]. intros Hitems.
      destruct (modifyItems_slice_total items Hitems) as (bis & Hbis' & _).
      congruence.
    + by apply modifyItems_no_panic in Hmod.
  - intros Hlen Hitems.
    destruct (modifyItems_slice_total items Hitems) as (bis & Hbis & Hlen').
    rewrite Hbis. exists bis. rewrite Hlen' , Hlen. done.
Qed.

Lemma PutMany_batch_limits_witness :
  PutMany (GoSlice (replicate 26 (GoJson (JObj [("name", JStr "a")]))))
          (fun _ => inr (Some JNull))
  = (Err ErrTooManyItems, []).
Proof.
  apply PutMany_batch_limits.
  - vm_compute. lia.
  - apply Forall_replicate. eexists. vm_compute. reflexivity.
Defined.

(** C6. [Put] of the nil value returns the empty string and no error and
    sends nothing.  Of any other value, [Put] is [PutMany] of the list
    holding that one value: the same requests are sent, an error of
    [PutMany] is the error of [Put], and the key [Put] returns is the
    first key of [PutMany]'s list, the key of the single item; where that
    list is empty there is no key to return and [Put] panics on
    [putKeys[0]]. *)
Theorem Put_single_PutMany (c : client) (item : goValue) :
  Put GoNil c = (Ok "", [])
  /\ (item <> GoNil ->
        result (Put item) c = firstKey (result (PutMany (GoSlice [item])) c) /\
        sent (Put item) c = sent (PutMany (GoSlice [item])) c).
Proof.
  split; [done|]. intros Hnil. unfold result, sent.
  rewrite Put_run, PutMany_run by done.
  destruct (modifyItems (GoSlice [item])) as [mis| |] eqn:Hmis; [|done..].
  apply modifyItems_slice_length in Hmis. by rewrite Hmis.
Qed.

Lemma Put_single_PutMany_witness :
  let c : client :=
    fun _ => inr (Some (JObj [("processed",
                   JObj [("items", JArr [JObj [("key", JStr "abc123");
                                               ("name", JStr "a")]])])])) in
  let item := GoJson (JObj [("name", JStr "a")]) in
  result (Put item) c = firstKey (result (PutMany (GoSlice [item])) c) /\
  sent (Put item) c = sent (PutMany (GoSlice [item])) c.
Proof.
  intros c item. apply Put_single_PutMany. discriminate.
Defined.

(** The scenario of the specification: [Put({"name": "a"})] sends
    [{"items":[{"name":"a"}]}]; the service answers with the item under
    the key [abc123] in its processed items, and [Put] returns that key. *)
Example Put_scenario :
  let c : client :=
    fun _ => inr (Some (JObj [("processed",
                   JObj [("items", JArr [JObj [("key", JStr "abc123");
                                               ("name", JStr "a")]])])])) in
  let item := GoJson (JObj [("name", JStr "a")]) in
  result (Put item) c = Ok "abc123" /\
  wire <$> sent (Put item) c = [Some scenarioPutWire].
Proof. split; vm_compute; reflexivity. Qed.

(** ** The panics of [Put] *)

Lemma keyString_Ok it s : keyString it = Ok s <-> itemLookup "key" it = Some (JStr s).
Proof.
  unfold keyString. destruct (itemLookup "key" it) as [[]|]; naive_solver.
Qed.

Lemma keyString_Panic it :
  ~ hasStringKey it -> keyString it = Panic InterfaceConversion.
Proof.
  unfold keyString, hasStringKey.
  destruct (itemLookup "key" it) as [[]|]; naive_solver.
Qed.

Lemma forM_keyString_Panic l :
  Exists (fun it => ~ hasStringKey it) l ->
  forM keyString l = Panic InterfaceConversion.
Proof.
  induction 1 as [it l Hit|it l _ IH]; simpl.
  - by rewrite keyString_Panic.
  - rewrite IH. unfold keyString.
    by destruct (itemLookup "key" it) as [[]|].
Qed.

Lemma forM_keyString_Ok l :
  Forall hasStringKey l ->
  exists ks, forM keyString l = Ok ks /\
             Forall2 (fun it k => itemLookup "key" it = Some (JStr k)) l ks.
Proof.
  induction 1 as [|it l [s Hs] _ (ks & Hks & Hall)]; [by exists []|].
  exists (s :: ks). simpl.
  rewrite (proj2 (keyString_Ok it s) Hs), Hks. split; [done|]. by constructor.
Qed.

(** C10, amended.  [Put] of a value other than nil, normalised, sent and
    answered, the answer decoding into a [putResponse]: if no item was
    processed, [Put] panics on [putKeys[0]]; if a processed item has no
    string under [key], [Put] panics on the type assertion in [put]; if
    there is a processed item and every processed item has a string key,
    [Put] does not panic and returns the key of the first one. *)
Theorem Put_panics (c : client) (item : goValue) mis body pr :
  item <> GoNil ->
  modifyItems (GoSlice [item]) = Ok mis ->
  c (putRequest mis) = inr body ->
  unmarshalPutResponse body = inr pr ->
  let processed := itemsOf (Processed pr) in
  (processed = [] -> result (Put item) c = Panic IndexOutOfRange)
  /\ (Exists (fun it => ~ hasStringKey it) processed ->
        result (Put item) c = Panic InterfaceConversion)
  /\ (processed <> [] -> Forall hasStringKey processed ->
        ~ is_Panic (result (Put item) c) /\
        exists k, result (Put item) c = Ok k /\
                  head processed ≫= itemLookup "key" = Some (JStr k)).
Proof.
  intros Hnil Hmis Hc Hpr processed. unfold result.
  rewrite Put_run, Hmis by done. simpl.
  unfold putKeys. rewrite Hc, Hpr. fold processed. split_and!.
  - by intros ->.
  - intros Hbad. by rewrite forM_keyString_Panic.
  - intros Hne Hall.
    destruct (forM_keyString_Ok _ Hall) as (ks & -> & Hks).
    destruct Hks as [|it k l ks' Hk _]; [done|]. simpl.
    split; [by intros [p ?]|]. by exists k.
Qed.

Lemma Put_panics_witness :
  let c : client :=
    fun _ => inr (Some (JObj [("processed", JObj [("items", JArr [])]);
                              ("failed",
                               JObj [("items", JArr [JObj [("name", JStr "a")]])])])) in
  result (Put (GoJson (JObj [("name", JStr "a")]))) c = Panic IndexOutOfRange.
Proof.
  intros c.
  eapply (Put_panics c (GoJson (JObj [("name", JStr "a")]))).
  - discriminate.
  - vm_compute. reflexivity.
  - reflexivity.
  - reflexivity.
  - reflexivity.
Defined.

(** C10 as worded fails: the service answers with two processed items, the
    first with a string key, the second with a number as key.  The
    precondition of the claim holds and [Put] panics. *)
Lemma Put_one_string_key_suffices_fails :
  let c : client :=
    fun _ => inr (Some (JObj [("processed",
                   JObj [("items", JArr [JObj [("key", JStr "a")];
                                         JObj [("key", JNum 1)]])])])) in
  ~ Put_one_string_key_suffices c (GoJson (JObj [("name", JStr "a")])).
Proof.
  intros c H. eapply H.
  - vm_compute. reflexivity.
  - reflexivity.
  - reflexivity.
  - apply Exists_cons_hd. exists "a". vm_compute. reflexivity.
  - exists InterfaceConversion. vm_compute. reflexivity.
Qed.

(** ** Fetch *)

Lemma Fetch_run {D} `{Destination D} query (dest : D) limit c :
  Fetch query dest limit c =
  (fetched dest (c (queryRequest query limit)), [queryRequest query limit]).
Proof.
  unfold Fetch, fetch, fetched, queryRequest, request, pure,
    mbind, call_mbind, call_bind.
  destruct (c _) as [e|body]; [done|].
  destruct (unmarshalFetchResponse body) as [d|res]; [done|]. simpl.
  destruct (unmarshalDest _ dest) as [d|dest']; [done|].
  by destruct (fetchResponse.Paging res).
Qed.

(** C5, amended.  On a successful [Fetch] the cursor is the last key of the
    paging when there is one and the empty string when there is none: it is
    empty when the last key is absent, and otherwise only when the last key
    is itself the empty string. *)
Theorem Fetch_cursor {D} `{Destination D}
    (c : client) (query : Query) (dest : D) (limit : Z)
    body res p dest' cursor :
  c (queryRequest query limit) = inr body ->
  unmarshalFetchResponse body = inr res ->
  fetchResponse.Paging res = Some p ->
  result (Fetch query dest limit) c = Ok (dest', cursor) ->
  cursor = default "" (paging.Last p)
  /\ (paging.Last p = None -> cursor = "")
  /\ (forall last, paging.Last p = Some last -> cursor = last)
  /\ (cursor = "" <-> paging.Last p = None \/ paging.Last p = Some "").
Proof.
  intros Hc Hres Hp. unfold result. rewrite Fetch_run. simpl.
  unfold fetched. rewrite Hc, Hres, Hp.
  destruct (unmarshalDest _ dest) as [d|dest'']; [done|].
  intros [= _ <-]. destruct (paging.Last p) as [last|]; simpl; naive_solver.
Qed.

Lemma Fetch_cursor_witness :
  result (Fetch None ([] : list json) 1)
         (fun _ => inr (Some (pageDoc 1 (Some "k1") [JObj [("key", JStr "k1")]])))
  = Ok ([JObj [("key", JStr "k1")]], "k1")
  /\ "k1" = default "" (Some "k1").
Proof.
  split; [reflexivity|].
  exact (proj1 (Fetch_cursor
                  (fun _ => inr (Some (pageDoc 1 (Some "k1")
                                         [JObj [("key", JStr "k1")]])))
                  None ([] : list json) 1
                  (Some (pageDoc 1 (Some "k1") [JObj [("key", JStr "k1")]]))
                  {| fetchResponse.Paging :=
                       Some {| paging.Size := 1; paging.Last := Some "k1" |};
                     fetchResponse.Items := Some [JObj [("key", JStr "k1")]] |}
                  {| paging.Size := 1; paging.Last := Some "k1" |}
                  [JObj [("key", JStr "k1")]] "k1"
                  eq_refl eq_refl eq_refl eq_refl)).
Defined.

(** C5 as worded fails where the service sends the empty string as last
    key: the cursor is empty and the last key is there. *)
Lemma cursor_empty_iff_last_absent_fails :
  ~ cursor_empty_iff_last_absent
      (fun _ => inr (Some (pageDoc 0 (Some "") [])))
      None ([] : list json) 0.
Proof.
  intros H.
  specialize (H (Some (pageDoc 0 (Some "") []))
                {| fetchResponse.Paging :=
                     Some {| paging.Size := 0; paging.Last := Some "" |};
                   fetchResponse.Items := Some [] |}
                {| paging.Size := 0; paging.Last := Some "" |}
                [] "" eq_refl eq_refl eq_refl eq_refl).
  destruct H as [H _]. discriminate (H eq_refl).
Qed.

(** C9, amended.  A [Fetch] whose request went through and whose answer
    decodes with a nil [Paging]: if the items of the answer decode into the
    destination, [Fetch] dereferences the nil pointer and panics, returning
    neither an error nor a cursor; if they do not, [Fetch] has already
    returned the [BadDestination] error.  With a [Paging] in the answer
    [Fetch] does not panic. *)
Theorem Fetch_nil_paging {D} `{Destination D}
    (c : client) (query : Query) (dest : D) (limit : Z) body res :
  c (queryRequest query limit) = inr body ->
  unmarshalFetchResponse body = inr res ->
  let data := marshalAnySlice (fetchResponse.Items res) in
  (fetchResponse.Paging res = None ->
     (forall dest', unmarshalDest data dest = inr dest' ->
        result (Fetch query dest limit) c = Panic NilDereference)
     /\ (forall d, unmarshalDest data dest = inl d ->
           result (Fetch query dest limit) c = Err (Wrapf ErrBadDestination d)))
  /\ (forall p, fetchResponse.Paging res = Some p ->
        ~ is_Panic (result (Fetch query dest limit) c)).
Proof.
  intros Hc Hres data. unfold result. rewrite Fetch_run. simpl.
  unfold fetched. rewrite Hc, Hres. fold data. split.
  - intros ->. split.
    + by intros dest' ->.
    + by intros d ->.
  - intros p -> [q Hq]. by destruct (unmarshalDest data dest).
Qed.

Lemma Fetch_nil_paging_witness :
  result (Fetch None ([] : list json) 0)
         (fun _ => inr (Some (JObj [("items", JArr [JNum 1])])))
  = Panic NilDereference.
Proof.
  destruct (Fetch_nil_paging
              (fun _ => inr (Some (JObj [("items", JArr [JNum 1])])))
              None ([] : list json) 0
              (Some (JObj [("items", JArr [JNum 1])]))
              {| fetchResponse.Paging := None;
                 fetchResponse.Items := Some [JNum 1] |}
              eq_refl eq_refl) as [Hnil _].
  destruct (Hnil eq_refl) as [Hpanic _].
  exact (Hpanic [JNum 1] eq_refl).
Defined.

(** C9 as worded fails where the items do not fit the destination: the
    answer has no paging and holds a number, the destination is a slice of
    strings, and [Fetch] returns a [BadDestination] error. *)
Lemma Fetch_panics_without_paging_fails :
  ~ Fetch_panics_without_paging
      (fun _ => inr (Some (JObj [("items", JArr [JNum 1])])))
      None ([] : list string) 0.
Proof.
  intros H.
  destruct (H (Some (JObj [("items", JArr [JNum 1])]))
              {| fetchResponse.Paging := None;
                 fetchResponse.Items := Some [JNum 1] |}
              eq_refl eq_refl eq_refl) as [p Hp].
  vm_compute in Hp. discriminate Hp.
Qed.

(** ** The paging scenario *)

Lemma member_paging p its :
  member "paging" [("paging", p); ("items", its)] = Some p.
Proof.
  unfold member, fieldsToMap. simpl.
  rewrite lookup_insert_ne by done. apply lookup_insert_eq.
Qed.

Lemma member_items p its :
  member "items" [("paging", p); ("items", its)] = Some its.
Proof. unfold member, fieldsToMap. simpl. apply lookup_insert_eq. Qed.

Lemma unmarshalFetchResponse_pageDoc size last items :
  (- 2 ^ 63 <= size < 2 ^ 63)%Z ->
  unmarshalFetchResponse (Some (pageDoc size last items)) =
  inr {| fetchResponse.Paging := Some {| paging.Size := size; paging.Last := last |};
         fetchResponse.Items := Some items |}.
Proof.
  intros Hsize. unfold unmarshalFetchResponse, pageDoc.
  rewrite member_paging, member_items. unfold unmarshalPaging.
  assert (unmarshalInt
            (member "size"
               (("size", JNum size)
                :: match last with Some l => [("last", JStr l)] | None => [] end))
          = inr size) as ->.
  { assert (member "size"
              (("size", JNum size)
               :: match last with Some l => [("last", JStr l)] | None => [] end)
            = Some (JNum size)) as ->.
    { unfold member, fieldsToMap. destruct last; simpl.
      - rewrite lookup_insert_ne by done. apply lookup_insert_eq.
      - apply lookup_insert_eq. }
    unfold unmarshalInt.
    rewrite (proj2 (Z.leb_le _ _)), (proj2 (Z.ltb_lt _ _)) by lia. done. }
  assert (unmarshalStringPtr
            (member "last"
               (("size", JNum size)
                :: match last with Some l => [("last", JStr l)] | None => [] end))
          = inr last) as ->; [|done].
  unfold member, fieldsToMap. destruct last; simpl.
  - by rewrite lookup_insert_eq.
  - rewrite lookup_insert_ne by done. by rewrite lookup_empty.
Qed.

Lemma queryService_Fetch collection query limit :
  let n := firstPageSize collection limit in
  let page := take n collection in
  queryService collection (queryRequest query limit) =
  inr (Some (pageDoc (Z.of_nat (length page))
               match drop n collection with
               | [] => None
               | _ :: _ => itemKey <$> last page
               end
               (marshalMap <$> page))).
Proof.
  unfold queryService, queryRequest, fetchRequestOf, firstPageSize. simpl.
  by destruct (0 <? limit)%Z.
Qed.

Lemma firstPageSize_pos limit : (0 < firstPageSize collection15 limit)%nat.
Proof.
  unfold firstPageSize. destruct (0 <? limit)%Z eqn:Hlimit.
  - apply Z.ltb_lt in Hlimit. lia.
  - vm_compute. lia.
Qed.

Lemma head_first_page n :
  (0 < n)%nat ->
  head (marshalMap <$> take n collection15) = Some (JObj [("key", JStr "k1")]).
Proof.
  destruct n as [|n]; [lia|]. intros _.
  assert (exists tl, collection15 = {[ "key" := JStr "k1" ]} :: tl) as [tl ->].
  { eexists. vm_compute. reflexivity. }
  simpl. f_equal.
Qed.

(** C4.  [Fetch] against a collection of 15 items, nil query, limit 10,
    returns the first 10 items and the cursor [k10].  The follow-up the
    claim describes cannot be made: [Fetch] takes no cursor and the request
    it builds never has a [last] field, whatever its arguments.  Asked with
    [last] set to the cursor the service would answer with the remaining 5
    items and no last key, but no call of [Fetch] returns them: every page
    [Fetch] can get starts at the first item again. *)
Theorem Fetch_cannot_continue :
  (forall D (H : Destination D) c query (dest : D) limit,
     sent (Fetch query dest limit) c = [queryRequest query limit] /\
     fetchRequest.Last (fetchRequestOf query limit) = None)
  /\ wire (queryRequest None 10) = Some scenarioQueryWire
  /\ result (Fetch None ([] : list json) 10) (queryService collection15)
     = Ok (first10, "k10")
  /\ queryService collection15
       {| Path := "/query"; Method := "POST";
          Body := FetchBody {| fetchRequest.Query := None;
                               fetchRequest.Last := Some "k10";
                               fetchRequest.Limit := Some 10 |} |}
     = inr (Some (pageDoc 5 None remaining5))
  /\ (forall query (dest : list json) limit,
        result (Fetch query dest limit) (queryService collection15)
        <> Ok (remaining5, "")).
Proof.
  split_and!.
  - intros D H c query dest limit. unfold sent. by rewrite Fetch_run.
  - vm_compute. reflexivity.
  - vm_compute. reflexivity.
  - vm_compute. reflexivity.
  - intros query dest limit. unfold result. rewrite Fetch_run.
    unfold fst, fetched. rewrite queryService_Fetch.
    rewrite unmarshalFetchResponse_pageDoc
      by (rewrite length_take; change (length collection15) with 15%nat; lia).
    unfold fetchResponse.Items, fetchResponse.Paging, marshalAnySlice,
      unmarshalDest, anySliceDest.
    intros [= Hpage _]. apply (f_equal head) in Hpage.
    rewrite head_first_page in Hpage by apply firstPageSize_pos.
    vm_compute in Hpage. discriminate Hpage.
Qed.

(** ** The update encoder *)

Lemma mapBucket_step b ur k v :
  b <> BTrim ->
  mapBucket b (updateStep ur (k, v)) =
  match payload b v with
  | Some x => <[k := x]> (mapBucket b ur)
  | None => mapBucket b ur
  end.
Proof. by destruct b, v. Qed.

Lemma Trim_step ur kv :
  Trim (updateStep ur kv) = (Trim ur ++ option_list (trimmed kv))%list.
Proof. destruct kv as [k []]; simpl; by rewrite ?app_nil_r. Qed.

(** The loop over entries with distinct names: what a map bucket holds. *)
Lemma mapBucket_foldl b (l : list (string * updateValue)) k x :
  b <> BTrim -> NoDup l.*1 ->
  mapBucket b (foldl updateStep emptyUpdateRequest l) !! k = Some x <->
  exists v, (k, v) ∈ l /\ payload b v = Some x.
Proof.
  intros Hb. induction l as [|[k' v'] l IH] using rev_ind; intros Hnd.
  - simpl. split.
    + destruct b; simpl; by rewrite lookup_empty.
    + intros (v & Hin & _). by apply elem_of_nil in Hin.
  - rewrite fmap_app in Hnd. apply NoDup_app in Hnd as (Hnd & Hfresh & _).
    assert (forall v, (k', v) ∉ l) as Hk'.
    { intros v Hin. apply (Hfresh k').
      - apply list_elem_of_fmap. by exists (k', v).
      - simpl. apply list_elem_of_singleton. done. }
    rewrite foldl_snoc, mapBucket_step by done.
    specialize (IH Hnd).
    destruct (payload b v') as [x'|] eqn:Hv'.
    + destruct (decide (k' = k)) as [->|Hne].
      * rewrite lookup_insert_eq. split.
        -- intros [= <-]. exists v'. split; [|done].
           apply elem_of_app. right. by apply list_elem_of_singleton.
        -- intros (v & Hin & Hv). apply elem_of_app in Hin as [Hin|Hin].
           ++ by apply Hk' in Hin.
           ++ apply list_elem_of_singleton in Hin as [= ->]. congruence.
      * rewrite lookup_insert_ne, IH by done. split.
        -- intros (v & Hin & Hv). exists v. split; [|done].
           apply elem_of_app. by left.
        -- intros (v & Hin & Hv). apply elem_of_app in Hin as [Hin|Hin].
           ++ by exists v.
           ++ apply list_elem_of_singleton in Hin as [= -> ->]. done.
    + rewrite IH. split.
      * intros (v & Hin & Hv). exists v. split; [|done].
        apply elem_of_app. by left.
      * intros (v & Hin & Hv). apply elem_of_app in Hin as [Hin|Hin].
        -- by exists v.
        -- apply list_elem_of_singleton in Hin as [= -> ->]. congruence.
Qed.

Lemma Trim_foldl (l : list (string * updateValue)) :
  Trim (foldl updateStep emptyUpdateRequest l) = omap trimmed l.
Proof.
  induction l as [|kv l IH] using rev_ind; [done|].
  rewrite foldl_snoc, Trim_step, IH, omap_app. simpl.
  by destruct (trimmed kv).
Qed.

Lemma NoDup_omap_trimmed (l : list (string * updateValue)) :
  NoDup l.*1 -> NoDup (omap trimmed l).
Proof.
  induction l as [|[k v] l IH]; simpl; [constructor|].
  rewrite NoDup_cons. intros [Hk Hnd].
  unfold trimmed at 1. simpl. destruct v; auto.
  apply NoDup_cons. split; [|by auto].
  intros Hin. apply list_elem_of_omap in Hin as ([k' v'] & Hin & Hv').
  unfold trimmed in Hv'. simpl in Hv'. destruct v'; try done.
  injection Hv' as ->. apply Hk. apply list_elem_of_fmap. by exists (k, TrimUtil).
Qed.

Lemma inBucket_foldl b (l : list (string * updateValue)) k :
  NoDup l.*1 ->
  inBucket (foldl updateStep emptyUpdateRequest l) b k <->
  exists v, (k, v) ∈ l /\ tagBucket v = b.
Proof.
  intros Hnd. destruct (decide (b = BTrim)) as [->|Hb].
  - simpl. rewrite Trim_foldl, list_elem_of_omap. split.
    + intros ([k' v] & Hin & Hv). unfold trimmed in Hv. simpl in Hv.
      destruct v; try done. injection Hv as ->. by exists TrimUtil.
    + intros (v & Hin & Hv). destruct v; try done. by exists (k, TrimUtil).
  - assert (inBucket (foldl updateStep emptyUpdateRequest l) b k <->
            is_Some (mapBucket b (foldl updateStep emptyUpdateRequest l) !! k))
      as -> by by destruct b.
    unfold is_Some. split.
    + intros [x Hx]. apply mapBucket_foldl in Hx as (v & Hin & Hv); [|done..].
      exists v. split; [done|]. by destruct b, v.
    + intros (v & Hin & Hv).
      assert (exists x, payload b v = Some x) as [x Hx].
      { destruct v; simplify_eq/=; by eexists. }
      exists x. apply mapBucket_foldl; [done..|]. by exists v.
Qed.

Section Encoder.

Variable rangeOrder : Updates -> list (string * updateValue).
Hypothesis rangeOrder_perm : forall m, rangeOrder m ≡ₚ map_to_list m.

Lemma rangeOrder_NoDup (updates : Updates) : NoDup (rangeOrder updates).*1.
Proof.
  rewrite (rangeOrder_perm updates). apply NoDup_fst_map_to_list.
Qed.

Lemma rangeOrder_elem (updates : Updates) k v :
  (k, v) ∈ rangeOrder updates <-> updates !! k = Some v.
Proof.
  rewrite (rangeOrder_perm updates). apply elem_of_map_to_list.
Qed.

Lemma inBucket_updates (updates : Updates) b k :
  inBucket (updatesToUpdateRequest rangeOrder updates) b k <->
  exists v, updates !! k = Some v /\ tagBucket v = b.
Proof.
  unfold updatesToUpdateRequest.
  rewrite inBucket_foldl by apply rangeOrder_NoDup.
  by setoid_rewrite rangeOrder_elem.
Qed.

Lemma mapBucket_updates (updates : Updates) b k x :
  b <> BTrim ->
  mapBucket b (updatesToUpdateRequest rangeOrder updates) !! k = Some x <->
  exists v, updates !! k = Some v /\ payload b v = Some x.
Proof.
  intros Hb. unfold updatesToUpdateRequest.
  rewrite mapBucket_foldl by (done || apply rangeOrder_NoDup).
  by setoid_rewrite rangeOrder_elem.
Qed.

(** C2. In the request encoded from an update set, the names found in the
    five buckets are the names of the update set; every field of the set
    is in the bucket its value's tag names and in no other, an untagged
    value going to the set bucket; no name is twice in the trim list; and
    the bucket holds, under the field's name, the value the entry
    carries. *)
Theorem updatesToUpdateRequest_buckets (updates : Updates) :
  let ur := updatesToUpdateRequest rangeOrder updates in
  bucketNames ur = dom updates
  /\ (forall k v, updates !! k = Some v ->
        inBucket ur (tagBucket v) k /\
        forall b, inBucket ur b k -> b = tagBucket v)
  /\ NoDup (Trim ur)
  /\ (forall k x, updates !! k = Some (Plain x) -> Set_ ur !! k = Some x)
  /\ (forall k v x, updates !! k = Some v -> payload (tagBucket v) v = Some x ->
        mapBucket (tagBucket v) ur !! k = Some x).
Proof.
  intros ur. split_and!.
  - apply set_eq. intros k. unfold bucketNames.
    rewrite !elem_of_union, elem_of_list_to_set, !elem_of_dom.
    pose proof (inBucket_updates updates BSet k) as HS.
    pose proof (inBucket_updates updates BTrim k) as HT.
    pose proof (inBucket_updates updates BAppend k) as HA.
    pose proof (inBucket_updates updates BPrepend k) as HP.
    pose proof (inBucket_updates updates BIncrement k) as HI.
    fold ur in HS, HT, HA, HP, HI. simpl in HS, HT, HA, HP, HI.
    rewrite HS, HT, HA, HP, HI. split.
    + intros [[[[H|H]|H]|H]|H]; destruct H as (v & -> & _); by eexists.
    + intros [v Hv]. destruct v; [do 4 left|do 3 left; right|
        do 2 left; right|left; right|right]; by eexists.
  - intros k v Hv. split.
    + apply inBucket_updates. by exists v.
    + intros b Hb. apply inBucket_updates in Hb as (v' & Hv' & <-). congruence.
  - unfold ur, updatesToUpdateRequest. rewrite Trim_foldl.
    apply NoDup_omap_trimmed, rangeOrder_NoDup.
  - intros k x Hk. apply (mapBucket_updates updates BSet); [done|].
    by exists (Plain x).
  - intros k v x Hk Hx. apply mapBucket_updates; [by destruct v|].
    by exists v.
Qed.

Lemma rangeOrder_scenario :
  rangeOrder scenarioUpdates = [("count", IncrementUtil (JNum 1)); ("tag", TrimUtil)]
  \/ rangeOrder scenarioUpdates = [("tag", TrimUtil); ("count", IncrementUtil (JNum 1))].
Proof.
  apply Permutation_length_2_inv. symmetry.
  rewrite (rangeOrder_perm scenarioUpdates). by vm_compute.
Qed.

(** C8. The update set [{"count": increment(1), "tag": trim()}] is encoded
    as the request whose text is
    [{"set":{},"trim":["tag"],"append":{},"prepend":{},"increment":{"count":1}}],
    the body of the [PATCH] that [Update("k1", ...)] sends: the buckets
    not used, [set], [append] and [prepend], are written as empty
    objects. *)
Theorem Update_scenario_wire (c : client) :
  let ur := updatesToUpdateRequest rangeOrder scenarioUpdates in
  marshalUpdateRequest ur =
    JObj [("set", JObj []); ("trim", JArr [JStr "tag"]); ("append", JObj []);
          ("prepend", JObj []); ("increment", JObj [("count", JNum 1)])]
  /\ render (marshalUpdateRequest ur) = scenarioWire
  /\ sent (Update rangeOrder "k1" scenarioUpdates) c =
       [{| Path := "/items/k1"; Method := "PATCH"; Body := UpdateBody ur |}]
  /\ wire <$> sent (Update rangeOrder "k1" scenarioUpdates) c = [Some scenarioWire].
Proof.
  unfold sent, Update, updatesToUpdateRequest, request, pure,
    mbind, call_mbind, call_bind.
  destruct rangeOrder_scenario as [-> | ->];
    (split_and!; [by vm_compute|by vm_compute| |]);
    destruct (c _); by vm_compute.
Qed.

End Encoder.

Lemma updatesToUpdateRequest_buckets_witness :
  bucketNames (updatesToUpdateRequest map_to_list scenarioUpdates)
  = dom scenarioUpdates.
Proof.
  destruct (updatesToUpdateRequest_buckets map_to_list
              (fun m => Permutation_refl (map_to_list m)) scenarioUpdates)
    as [H _].
  exact H.
Defined.

Lemma Update_scenario_wire_witness :
  render (marshalUpdateRequest (updatesToUpdateRequest map_to_list scenarioUpdates))
  = scenarioWire.
Proof.
  destruct (Update_scenario_wire map_to_list
              (fun m => Permutation_refl (map_to_list m))
              (fun _ => inr None))
    as (_ & H & _).
  exact H.
Defined.

(** * Further properties *)

(** ** Normalised items *)

Lemma removeEmptyKey_keyClean bi bi' :
  removeEmptyKey bi = Ok bi' -> keyClean bi'.
Proof.
  unfold removeEmptyKey, keyClean.
  destruct (itemLookup "key" bi) as [j|] eqn:Hk.
  - destruct j; try done. case_decide as Hs; intros [= <-].
    + unfold itemLookup, itemDelete. destruct bi as [m|]; simpl; [|done].
      by rewrite lookup_delete_eq.
    + by rewrite Hk.
  - intros [= <-]. by rewrite Hk.
Qed.

Lemma modifyItem_keyClean item bi : modifyItem item = Ok bi -> keyClean bi.
Proof.
  unfold modifyItem. repeat case_match; try done.
  apply removeEmptyKey_keyClean.
Qed.

Lemma modifyItems_keyClean items bis :
  modifyItems items = Ok bis -> Forall keyClean bis.
Proof.
  unfold modifyItems. repeat case_match; try done.
  rewrite forM_Ok. intros Hall.
  apply Forall_forall. intros bi' Hin.
  apply list_elem_of_lookup in Hin as [i Hi].
  destruct (Forall2_lookup_r _ _ _ _ _ Hall Hi) as (bi0 & _ & Hbi0).
  by eapply removeEmptyKey_keyClean.
Qed.

(** X1. An item that comes out of the normaliser never carries an empty
    key, nor a key that is not a string: its [key] is absent or a
    non-empty string.  This holds for [modifyItem] and for every item of
    the list [modifyItems] returns, whatever value was handed in. *)
Theorem normalised_key_clean :
  (forall item bi, modifyItem item = Ok bi -> keyClean bi)
  /\ (forall items bis, modifyItems items = Ok bis -> Forall keyClean bis).
Proof.
  split; [apply modifyItem_keyClean | apply modifyItems_keyClean].
Qed.

Lemma normalised_key_clean_witness :
  keyClean (Some (delete "key" (fieldsToMap [("key", JStr ""); ("name", JStr "a")]))).
Proof.
  apply (proj1 normalised_key_clean
           (GoJson (JObj [("key", JStr ""); ("name", JStr "a")]))).
  vm_compute. reflexivity.
Defined.



(** ** Items on the wire and back *)

Lemma fieldsToMap_snoc fs k v :
  fieldsToMap (fs ++ [(k, v)]) = <[k := v]> (fieldsToMap fs).
Proof. unfold fieldsToMap. by rewrite foldl_snoc. Qed.

(** With no name twice, the decoded map holds the members as listed. *)
Lemma fieldsToMap_lookup (fs : list (string * json)) k v :
  NoDup fs.*1 -> fieldsToMap fs !! k = Some v <-> (k, v) ∈ fs.
Proof.
  induction fs as [|[k' v'] fs IH] using rev_ind; intros Hnd.
  - unfold fieldsToMap. simpl. rewrite lookup_empty. split; [done|].
    intros Hin. by apply elem_of_nil in Hin.
  - rewrite fmap_app in Hnd. apply NoDup_app in Hnd as (Hnd & Hfresh & _).
    rewrite fieldsToMap_snoc, elem_of_app, list_elem_of_singleton.
    destruct (decide (k' = k)) as [->|Hne].
    + rewrite lookup_insert_eq. split.
      * intros [= ->]. by right.
      * intros [Hin|[= ->]]; [|done]. exfalso. apply (Hfresh k).
        -- apply list_elem_of_fmap. by exists (k, v).
        -- simpl. by apply list_elem_of_singleton.
    + rewrite lookup_insert_ne, (IH Hnd) by done. split; [by left|].
      intros [Hin|[= -> ->]]; done.
Qed.

Lemma fieldsToMap_map_to_list (m : gmap string json) fs :
  fs ≡ₚ map_to_list m -> fieldsToMap fs = m.
Proof.
  intros Hperm. apply map_eq. intros k. apply option_eq. intros v.
  rewrite fieldsToMap_lookup.
  - rewrite Hperm. apply elem_of_map_to_list.
  - rewrite Hperm. apply NoDup_fst_map_to_list.
Qed.

Lemma unmarshal_marshalItem bi : unmarshalBaseItem (marshalItem bi) = inr bi.
Proof.
  destruct bi as [m|]; [|done]. simpl. do 2 f_equal.
  apply fieldsToMap_map_to_list. unfold sortFields.
  apply merge_sort_Permutation.
Qed.

Lemma unmarshalElems_marshalItem bis :
  unmarshalElems (marshalItem <$> bis) = inr bis.
Proof.
  induction bis as [|bi bis IH]; [done|].
  rewrite fmap_cons. simpl unmarshalElems.
  by rewrite unmarshal_marshalItem, IH.
Qed.

Lemma removeEmptyKey_clean bi : keyClean bi -> removeEmptyKey bi = Ok bi.
Proof.
  unfold keyClean, removeEmptyKey.
  destruct (itemLookup "key" bi) as [[]|]; try done.
  intros Hs. by rewrite decide_False.
Qed.

Lemma forM_removeEmptyKey_clean bis :
  Forall keyClean bis -> forM removeEmptyKey bis = Ok bis.
Proof.
  induction 1 as [|bi bis Hbi _ IH]; [done|].
  simpl. by rewrite removeEmptyKey_clean, IH.
Qed.

(** X3. An item written into a request and read back is the same item:
    decoding what [json.Marshal] writes for an item, or for a list of
    items, gives the item, or the list, again (a nil item is written
    [null] and read back as nil). *)
Theorem item_wire_round_trip :
  (forall bi, unmarshalBaseItem (marshalItem bi) = inr bi)
  /\ (forall bis, unmarshalBaseItems (JArr (marshalItem <$> bis)) = inr bis).
Proof.
  split; [apply unmarshal_marshalItem | apply unmarshalElems_marshalItem].
Qed.

(** X4. Normalisation is idempotent: an item the normaliser returned, handed
    to it again, comes back unchanged; and so does a whole list returned by
    [modifyItems]. *)
Theorem normalisation_idempotent :
  (forall item bi,
     modifyItem item = Ok bi -> modifyItem (GoJson (marshalItem bi)) = Ok bi)
  /\ (forall items bis,
        modifyItems items = Ok bis ->
        modifyItems (GoJson (JArr (marshalItem <$> bis))) = Ok bis).
Proof.
  split.
  - intros item bi Hbi. unfold modifyItem. simpl.
    rewrite unmarshal_marshalItem.
    apply removeEmptyKey_clean. by eapply modifyItem_keyClean.
  - intros items bis Hbis. unfold modifyItems, unmarshalBaseItems. simpl.
    rewrite unmarshalElems_marshalItem.
    apply forM_removeEmptyKey_clean. by eapply modifyItems_keyClean.
Qed.

Lemma normalisation_idempotent_witness :
  modifyItem (GoJson (marshalItem
                (Some (delete "key" (fieldsToMap [("key", JStr ""); ("name", JStr "a")])))))
  = Ok (Some (delete "key" (fieldsToMap [("key", JStr ""); ("name", JStr "a")]))).
Proof.
  apply (proj1 normalisation_idempotent
           (GoJson (JObj [("key", JStr ""); ("name", JStr "a")]))).
  vm_compute. reflexivity.
Defined.

(** ** The operations, request by request *)

Lemma Insert_run item c :
  Insert item c =
  match modifyItem item with
  | Ok bi => (inserted (c (insertRequestOf bi)), [insertRequestOf bi])
  | Err e => (Err e, [])
  | Panic p => (Panic p, [])
  end.
Proof.
  unfold Insert, inserted, insertRequestOf, request, pure,
    mbind, call_mbind, call_bind.
  destruct (modifyItem item) as [bi| |]; [|done..].
  destruct (c _) as [e|[j|]]; try done; by destruct (unmarshalBaseItem j).
Qed.

Lemma Get_run {D} `{Destination D} key (dest : D) c :
  Get key dest c = (got dest (c (getRequest key)), [getRequest key]).
Proof.
  unfold Get, got, getRequest, request, pure, mbind, call_mbind, call_bind.
  destruct (c _) as [e|[j|]]; try done; by destruct (unmarshalDest j dest).
Qed.

Lemma Delete_run key c :
  Delete key c = (acknowledged (c (deleteRequest key)), [deleteRequest key]).
Proof.
  unfold Delete, acknowledged, deleteRequest, request, pure,
    mbind, call_mbind, call_bind.
  by destruct (c _).
Qed.

Lemma Update_run rangeOrder key updates c :
  Update rangeOrder key updates c =
  (acknowledged (c (patchRequest rangeOrder key updates)),
   [patchRequest rangeOrder key updates]).
Proof.
  unfold Update, acknowledged, patchRequest, request, pure,
    mbind, call_mbind, call_bind.
  by destruct (c _).
Qed.

Lemma modifyItems_single_Err item :
  is_Err (modifyItem item) -> is_Err (modifyItems (GoSlice [item])).
Proof.
  intros H. apply modifyItems_slice_Err. by apply Exists_cons_hd.
Qed.

(** X5. A value that does not normalise never reaches the service: [Insert],
    [Put] and [PutMany] return the [BadItem] error of the normaliser and
    send no request. *)
Theorem bad_item_sends_nothing (c : client) :
  (forall item, is_Err (modifyItem item) ->
     exists e, Insert item c = (Err e, []) /\ errorsIs e ErrBadItem)
  /\ (forall item, is_Err (modifyItem item) ->
        exists e, Put item c = (Err e, []) /\ errorsIs e ErrBadItem)
  /\ (forall items, is_Err (modifyItems items) ->
        exists e, PutMany items c = (Err e, []) /\ errorsIs e ErrBadItem).
Proof.
  split_and!.
  - intros item [e He]. exists e. rewrite Insert_run, He.
    split; [done|]. by eapply modifyItem_BadItem.
  - intros item Herr.
    assert (item <> GoNil) as Hnil.
    { intros ->. by destruct Herr. }
    destruct (modifyItems_single_Err item Herr) as [e He].
    exists e. rewrite Put_run, He by done.
    split; [done|]. by eapply modifyItems_BadItem.
  - intros items [e He]. exists e. rewrite PutMany_run, He.
    split; [done|]. by eapply modifyItems_BadItem.
Qed.

Lemma bad_item_sends_nothing_witness :
  exists e, Insert (GoJson (JObj [("key", JNum 7)])) (fun _ => inr (Some JNull))
            = (Err e, [])
            /\ errorsIs e ErrBadItem.
Proof.
  apply (proj1 (bad_item_sends_nothing (fun _ => inr (Some JNull)))).
  eexists. vm_compute. reflexivity.
Defined.

(** X6. [PutMany] wants a list.  A value whose encoding is neither an array
    nor [null] (a single item, a string, a number) is refused with a
    [BadItem] error and nothing is sent; a value whose encoding is [null]
    (a nil slice) is the empty batch: no error, no key, no request. *)
Theorem PutMany_not_a_list (c : client) (items : goValue) (j : json) :
  marshal items = Some j ->
  (match j with JArr _ | JNull => False | _ => True end ->
     exists e, PutMany items c = (Err e, []) /\ errorsIs e ErrBadItem)
  /\ (j = JNull -> PutMany items c = (Ok [], [])).
Proof.
  intros Hj. rewrite PutMany_run. unfold modifyItems. rewrite Hj. split.
  - intros Hshape. destruct j; try done; simpl;
      (eexists; split; [done|]; simpl; by auto).
  - by intros ->.
Qed.

Lemma PutMany_not_a_list_witness :
  exists e, PutMany (GoJson (JObj [("name", JStr "a")])) (fun _ => inr (Some JNull))
            = (Err e, [])
            /\ errorsIs e ErrBadItem.
Proof.
  by apply (proj1 (PutMany_not_a_list (fun _ => inr (Some JNull))
                     (GoJson (JObj [("name", JStr "a")]))
                     (JObj [("name", JStr "a")]) eq_refl)).
Defined.

(** X7. Whatever [PutMany] is given, a request it sends carries the
    normalised items, at least one and at most 25 of them, none with an
    empty key; and it sends at most one request. *)
Theorem PutMany_batch_on_the_wire (c : client) (items : goValue) :
  (length (sent (PutMany items) c) <= 1)%nat
  /\ (forall req, req ∈ sent (PutMany items) c ->
        exists bis, req = putRequest bis /\ modifyItems items = Ok bis /\
                    (1 <= length bis <= 25)%nat /\ Forall keyClean bis).
Proof.
  unfold sent. rewrite PutMany_run.
  destruct (modifyItems items) as [bis| |] eqn:Hbis; simpl;
    [|split; [lia|intros ? Hin; by apply elem_of_nil in Hin]..].
  destruct (length bis =? 0)%nat eqn:H0; simpl;
    [split; [lia|intros ? Hin; by apply elem_of_nil in Hin]|].
  destruct (25 <? length bis)%nat eqn:H25; simpl;
    [split; [lia|intros ? Hin; by apply elem_of_nil in Hin]|].
  split; [lia|]. intros req Hin. apply list_elem_of_singleton in Hin as ->.
  exists bis. apply Nat.eqb_neq in H0. apply Nat.ltb_ge in H25.
  split_and!; [done|done|lia|lia|by eapply modifyItems_keyClean].
Qed.

Lemma PutMany_batch_on_the_wire_witness :
  exists bis,
    putRequest [Some (fieldsToMap [("name", JStr "a")])] = putRequest bis /\
    modifyItems (GoSlice [GoJson (JObj [("key", JStr ""); ("name", JStr "a")])]) = Ok bis /\
    (1 <= length bis <= 25)%nat /\ Forall keyClean bis.
Proof.
  apply (proj2 (PutMany_batch_on_the_wire (fun _ => inr (Some JNull))
                  (GoSlice [GoJson (JObj [("key", JStr ""); ("name", JStr "a")])]))).
  vm_compute. apply list_elem_of_here.
Defined.

(** X8. A request [Put] sends carries one item, the value it was given,
    normalised; and [Put] sends at most one request. *)
Theorem Put_sends_the_normalised_item (c : client) (item : goValue) :
  (length (sent (Put item) c) <= 1)%nat
  /\ (forall req, req ∈ sent (Put item) c ->
        exists bi, req = putRequest [bi] /\ modifyItem item = Ok bi /\ keyClean bi).
Proof.
  unfold sent.
  assert (item = GoNil \/ item <> GoNil) as [->|Hnil]
    by (destruct item; auto).
  { simpl. split; [lia|]. intros ? Hin. by apply elem_of_nil in Hin. }
  rewrite Put_run by done.
  destruct (modifyItems (GoSlice [item])) as [bis| |] eqn:Hbis; simpl;
    [|split; [lia|intros ? Hin; by apply elem_of_nil in Hin]..].
  split; [lia|]. intros req Hin. apply list_elem_of_singleton in Hin as ->.
  apply modifyItems_slice_Ok in Hbis.
  inversion Hbis as [|? bi ? bis' Hbi Hnil']; subst.
  inversion Hnil'; subst.
  exists bi. split_and!; [done..|]. by eapply modifyItem_keyClean.
Qed.

Lemma Put_sends_the_normalised_item_witness :
  exists bi,
    putRequest [Some (fieldsToMap [("name", JStr "a")])] = putRequest [bi] /\
    modifyItem (GoJson (JObj [("key", JStr ""); ("name", JStr "a")])) = Ok bi /\
    keyClean bi.
Proof.
  apply (proj2 (Put_sends_the_normalised_item (fun _ => inr (Some JNull))
                  (GoJson (JObj [("key", JStr ""); ("name", JStr "a")])))).
  vm_compute. apply list_elem_of_here.
Defined.

Lemma forM_keyString_Ok_iff l ks :
  forM keyString l = Ok ks <->
  Forall2 (fun it k => itemLookup "key" it = Some (JStr k)) l ks.
Proof.
  rewrite forM_Ok.
  split; intros Hall; (eapply Forall2_impl; [exact Hall|]);
    intros it k; apply keyString_Ok.
Qed.

(** X9. The keys [PutMany] returns are the keys of the items the service
    reports as processed, one for one and in the service's order: as many
    keys as processed items, however many items were submitted, and
    whatever the failed partition holds. *)
Theorem PutMany_keys_in_order (c : client) (items : goValue) bis body pr :
  modifyItems items = Ok bis ->
  (1 <= length bis <= 25)%nat ->
  c (putRequest bis) = inr body ->
  unmarshalPutResponse body = inr pr ->
  forall ks,
    result (PutMany items) c = Ok ks <->
    Forall2 (fun it k => itemLookup "key" it = Some (JStr k))
            (itemsOf (Processed pr)) ks.
Proof.
  intros Hbis Hlen Hc Hpr ks. unfold result. rewrite PutMany_run, Hbis.
  destruct (length bis =? 0)%nat eqn:H0; [apply Nat.eqb_eq in H0; lia|].
  destruct (25 <? length bis)%nat eqn:H25; [apply Nat.ltb_lt in H25; lia|].
  simpl. unfold putKeys. rewrite Hc, Hpr. apply forM_keyString_Ok_iff.
Qed.

Lemma PutMany_keys_in_order_witness :
  result (PutMany (GoSlice [GoJson (JObj [("name", JStr "a")]);
                            GoJson (JObj [("name", JStr "b")])]))
         (fun _ => inr (Some (JObj [("processed",
                     JObj [("items", JArr [JObj [("key", JStr "k2")]])]);
                                    ("failed",
                     JObj [("items", JArr [JObj [("name", JStr "a")]])])])))
  = Ok ["k2"].
Proof.
  eapply (PutMany_keys_in_order
            (fun _ => inr (Some (JObj [("processed",
                        JObj [("items", JArr [JObj [("key", JStr "k2")]])]);
                                       ("failed",
                        JObj [("items", JArr [JObj [("name", JStr "a")]])])])))).
  - vm_compute. reflexivity.
  - simpl. lia.
  - reflexivity.
  - vm_compute. reflexivity.
  - repeat constructor.
Defined.

(** X10. [Insert] of a value that normalises sends one [POST /items] with
    the normalised item.  It returns the [key] of the item in the answer
    when that is a string; it panics on the type assertion when the answer
    is [null] or an object without a string [key]; an answer that is not
    an object is a decoding error. *)
Theorem Insert_outcomes (c : client) (item : goValue) bi body :
  modifyItem item = Ok bi ->
  c (insertRequestOf bi) = inr (Some body) ->
  sent (Insert item) c = [insertRequestOf bi]
  /\ (forall fs k, body = JObj fs -> fieldsToMap fs !! "key" = Some (JStr k) ->
        result (Insert item) c = Ok k)
  /\ (forall fs, body = JObj fs ->
        (forall k, fieldsToMap fs !! "key" <> Some (JStr k)) ->
        result (Insert item) c = Panic InterfaceConversion)
  /\ (body = JNull -> result (Insert item) c = Panic InterfaceConversion)
  /\ (match body with JObj _ | JNull => False | _ => True end ->
        exists d, result (Insert item) c = Err (ErrJSON d)).
Proof.
  intros Hbi Hc. unfold sent, result. rewrite Insert_run, Hbi. simpl.
  unfold inserted. rewrite Hc. split_and!.
  - done.
  - intros fs k -> Hk. simpl. unfold keyString, itemLookup. simpl. by rewrite Hk.
  - intros fs -> Hk. simpl. unfold keyString, itemLookup. simpl.
    destruct (fieldsToMap fs !! "key") as [[]|] eqn:Hkey; try done.
    by destruct (Hk s).
  - by intros ->.
  - intros Hshape. destruct body; try done; by eexists.
Qed.

Lemma Insert_outcomes_witness :
  result (Insert (GoJson (JObj [("name", JStr "a")])))
         (fun _ => inr (Some (JObj [("key", JStr "abc123"); ("name", JStr "a")])))
  = Ok "abc123".
Proof.
  destruct (Insert_outcomes
              (fun _ => inr (Some (JObj [("key", JStr "abc123"); ("name", JStr "a")])))
              (GoJson (JObj [("name", JStr "a")]))
              (Some (fieldsToMap [("name", JStr "a")]))
              (JObj [("key", JStr "abc123"); ("name", JStr "a")]))
    as (_ & Hkey & _).
  - vm_compute. reflexivity.
  - reflexivity.
  - eapply Hkey; [reflexivity|]. vm_compute. reflexivity.
Defined.

(** X11. An error of the transport is returned as it is, by every
    operation: it is neither wrapped nor replaced. *)
Theorem transport_error_unchanged (c : client) (e : error) :
  (forall req, c req = inl e) ->
  (forall item bi, modifyItem item = Ok bi -> result (Insert item) c = Err e)
  /\ (forall item bi, item <> GoNil -> modifyItem item = Ok bi ->
        result (Put item) c = Err e)
  /\ (forall items bis, modifyItems items = Ok bis ->
        (1 <= length bis <= 25)%nat -> result (PutMany items) c = Err e)
  /\ (forall D (H : Destination D) key (dest : D), result (Get key dest) c = Err e)
  /\ (forall rangeOrder key updates,
        result (Update rangeOrder key updates) c = Err e)
  /\ (forall key, result (Delete key) c = Err e)
  /\ (forall D (H : Destination D) query (dest : D) limit,
        result (Fetch query dest limit) c = Err e).
Proof.
  intros Hc. unfold result. split_and!.
  - intros item bi Hbi. rewrite Insert_run, Hbi. simpl.
    unfold inserted. by rewrite Hc.
  - intros item bi Hnil Hbi. rewrite Put_run by done.
    assert (modifyItems (GoSlice [item]) = Ok [bi]) as ->.
    { apply modifyItems_slice_Ok. by repeat constructor. }
    simpl. unfold putKeys. by rewrite Hc.
  - intros items bis Hbis Hlen. rewrite PutMany_run, Hbis.
    destruct (length bis =? 0)%nat eqn:H0; [apply Nat.eqb_eq in H0; lia|].
    destruct (25 <? length bis)%nat eqn:H25; [apply Nat.ltb_lt in H25; lia|].
    simpl. unfold putKeys. by rewrite Hc.
  - intros D H key dest. rewrite Get_run. simpl. unfold got. by rewrite Hc.
  - intros rangeOrder key updates. rewrite Update_run. simpl.
    unfold acknowledged. by rewrite Hc.
  - intros key. rewrite Delete_run. simpl. unfold acknowledged. by rewrite Hc.
  - intros D H query dest limit. rewrite Fetch_run. simpl.
    unfold fetched. by rewrite Hc.
Qed.

Lemma transport_error_unchanged_witness :
  result (Delete "k1") (fun _ => inl (ErrTransport "connection refused"))
  = Err (ErrTransport "connection refused").
Proof.
  apply (transport_error_unchanged
           (fun _ => inl (ErrTransport "connection refused"))
           (ErrTransport "connection refused") (fun _ => eq_refl)).
Defined.

(** X12. No operation loops or retries: [Get], [Update], [Delete] and
    [Fetch] send exactly one request on every call, [Insert] one when the
    value normalises and none otherwise, whatever the client answers. *)
Theorem one_request_per_call (c : client) :
  (forall D (H : Destination D) key (dest : D),
     sent (Get key dest) c = [getRequest key])
  /\ (forall rangeOrder key updates,
        sent (Update rangeOrder key updates) c
        = [patchRequest rangeOrder key updates])
  /\ (forall key, sent (Delete key) c = [deleteRequest key])
  /\ (forall D (H : Destination D) query (dest : D) limit,
        sent (Fetch query dest limit) c = [queryRequest query limit])
  /\ (forall item,
        sent (Insert item) c =
        match modifyItem item with
        | Ok bi => [insertRequestOf bi]
        | _ => []
        end).
Proof.
  unfold sent. split_and!.
  - intros. by rewrite Get_run.
  - intros. by rewrite Update_run.
  - intros. by rewrite Delete_run.
  - intros. by rewrite Fetch_run.
  - intros item. rewrite Insert_run. by destruct (modifyItem item).
Qed.

(** X13. The limit of [Fetch] on the wire: a limit of zero or less leaves
    the request with its [query] member alone, a positive limit adds the
    [limit] member with that number; there is no other member. *)
Theorem Fetch_limit_on_the_wire (query : Query) (limit : Z) :
  let q := match query with
           | None => JNull
           | Some groups => JArr (marshalMap <$> groups)
           end in
  ((limit <= 0)%Z ->
     marshalBody (Body (queryRequest query limit)) = Some (JObj [("query", q)]))
  /\ ((0 < limit)%Z ->
        marshalBody (Body (queryRequest query limit))
        = Some (JObj [("query", q); ("limit", JNum limit)])).
Proof.
  intros q. simpl. unfold marshalFetchRequest, fetchRequestOf. simpl. split.
  - intros Hle. by rewrite (proj2 (Z.ltb_ge 0 limit) Hle).
  - intros Hlt. by rewrite (proj2 (Z.ltb_lt 0 limit) Hlt).
Qed.

Lemma Fetch_limit_on_the_wire_witness :
  marshalBody (Body (queryRequest None (-3))) = Some (JObj [("query", JNull)]).
Proof.
  apply (Fetch_limit_on_the_wire None (-3)). lia.
Defined.

(** X14. [Get] never panics, and apart from an error of the transport its
    only failure is [BadDestination]: an answer that decodes into the
    destination gives the destination filled, any other answer (bytes that
    are no JSON text included) a [BadDestination] error. *)
Theorem Get_outcomes {D} `{Destination D} (c : client) (key : string) (dest : D)
    (body : option json) :
  c (getRequest key) = inr body ->
  ~ is_Panic (result (Get key dest) c)
  /\ (forall j dest', body = Some j -> unmarshalDest j dest = inr dest' ->
        result (Get key dest) c = Ok dest')
  /\ ((body = None \/ exists j d, body = Some j /\ unmarshalDest j dest = inl d) ->
        exists e, result (Get key dest) c = Err e /\ errorsIs e ErrBadDestination).
Proof.
  intros Hc. unfold result. rewrite Get_run. simpl. unfold got. rewrite Hc.
  split_and!.
  - intros [p Hp]. destruct body as [j|]; [|done].
    by destruct (unmarshalDest j dest).
  - by intros j dest' -> ->.
  - intros [->|(j & d & -> & ->)]; (eexists; split; [done|]; simpl; by auto).
Qed.

Lemma Get_outcomes_witness :
  result (Get "k1" (None : baseItem))
         (fun _ => inr (Some (JObj [("key", JStr "k1")])))
  = Ok (Some (fieldsToMap [("key", JStr "k1")])).
Proof.
  destruct (Get_outcomes (fun _ => inr (Some (JObj [("key", JStr "k1")])))
              "k1" (None : baseItem) (Some (JObj [("key", JStr "k1")])) eq_refl)
    as (_ & Hok & _).
  by apply (Hok (JObj [("key", JStr "k1")])).
Defined.

(** ** More on the update encoder *)

Lemma mapBucket_fresh b (l : list (string * updateValue)) k :
  b <> BTrim -> NoDup l.*1 -> k ∉ l.*1 ->
  mapBucket b (foldl updateStep emptyUpdateRequest l) !! k = None.
Proof.
  intros Hb Hnd Hk. apply eq_None_not_Some. intros [x Hx].
  apply mapBucket_foldl in Hx as (v & Hin & _); [|done..].
  apply Hk. apply list_elem_of_fmap. by exists (k, v).
Qed.

Lemma bucketCount_foldl (l : list (string * updateValue)) :
  NoDup l.*1 -> bucketCount (foldl updateStep emptyUpdateRequest l) = length l.
Proof.
  induction l as [|[k v] l IH] using rev_ind; intros Hnd; [done|].
  rewrite fmap_app in Hnd. apply NoDup_app in Hnd as (Hnd & Hfresh & _).
  assert (k ∉ l.*1) as Hk.
  { intros Hin. apply (Hfresh k Hin). simpl. by apply list_elem_of_singleton. }
  specialize (IH Hnd). rewrite foldl_snoc, length_app. simpl.
  pose proof (mapBucket_fresh BSet l k) as HS.
  pose proof (mapBucket_fresh BAppend l k) as HA.
  pose proof (mapBucket_fresh BPrepend l k) as HP.
  pose proof (mapBucket_fresh BIncrement l k) as HI.
  specialize (HS ltac:(done) Hnd Hk). specialize (HA ltac:(done) Hnd Hk).
  specialize (HP ltac:(done) Hnd Hk). specialize (HI ltac:(done) Hnd Hk).
  simpl in HS, HA, HP, HI. unfold bucketCount in *.
  destruct v; simpl.
  - rewrite map_size_insert_None by done. lia.
  - rewrite length_app. simpl. lia.
  - rewrite map_size_insert_None by done. lia.
  - rewrite map_size_insert_None by done. lia.
  - rewrite map_size_insert_None by done. lia.
Qed.

(** X15. The order in which Go ranges over the update set does not show in
    the four map buckets: each is the part of the update set with that tag,
    under the same names and with the values the entries carry.  Two runs
    of the encoder on the same set differ at most in the order of the trim
    list. *)
Theorem updatesToUpdateRequest_order_independent
    (order1 order2 : Updates -> list (string * updateValue)) (updates : Updates) :
  (forall m, order1 m ≡ₚ map_to_list m) ->
  (forall m, order2 m ≡ₚ map_to_list m) ->
  let ur1 := updatesToUpdateRequest order1 updates in
  let ur2 := updatesToUpdateRequest order2 updates in
  (forall b, b <> BTrim -> mapBucket b ur1 = omap (payload b) updates)
  /\ Set_ ur1 = Set_ ur2
  /\ Append ur1 = Append ur2
  /\ Prepend ur1 = Prepend ur2
  /\ Increment ur1 = Increment ur2
  /\ Trim ur1 ≡ₚ Trim ur2.
Proof.
  intros H1 H2 ur1 ur2.
  assert (forall order, (forall m, order m ≡ₚ map_to_list m) ->
            forall b, b <> BTrim ->
              mapBucket b (updatesToUpdateRequest order updates)
              = omap (payload b) updates) as Hclosed.
  { intros order Horder b Hb. apply map_eq. intros k. apply option_eq. intros x.
    rewrite (mapBucket_updates order Horder) by done.
    rewrite lookup_omap_Some. naive_solver. }
  split_and!.
  - by apply Hclosed.
  - apply (eq_trans (Hclosed order1 H1 BSet ltac:(done))).
    symmetry. by apply (Hclosed order2 H2 BSet).
  - apply (eq_trans (Hclosed order1 H1 BAppend ltac:(done))).
    symmetry. by apply (Hclosed order2 H2 BAppend).
  - apply (eq_trans (Hclosed order1 H1 BPrepend ltac:(done))).
    symmetry. by apply (Hclosed order2 H2 BPrepend).
  - apply (eq_trans (Hclosed order1 H1 BIncrement ltac:(done))).
    symmetry. by apply (Hclosed order2 H2 BIncrement).
  - unfold ur1, ur2, updatesToUpdateRequest. rewrite !Trim_foldl.
    by rewrite (H1 updates), (H2 updates).
Qed.

Lemma updatesToUpdateRequest_order_independent_witness :
  Trim (updatesToUpdateRequest map_to_list scenarioUpdates)
  ≡ₚ Trim (updatesToUpdateRequest (fun m => reverse (map_to_list m)) scenarioUpdates).
Proof.
  apply (updatesToUpdateRequest_order_independent
           map_to_list (fun m => reverse (map_to_list m)) scenarioUpdates).
  - intros m. reflexivity.
  - intros m. apply reverse_Permutation.
Defined.

(** X16. The encoder loses no entry and invents none: the five buckets
    together hold as many names as the update set has entries. *)
Theorem updatesToUpdateRequest_count
    (rangeOrder : Updates -> list (string * updateValue)) (updates : Updates) :
  (forall m, rangeOrder m ≡ₚ map_to_list m) ->
  bucketCount (updatesToUpdateRequest rangeOrder updates) = size updates.
Proof.
  intros Hperm. unfold updatesToUpdateRequest.
  rewrite bucketCount_foldl by by apply rangeOrder_NoDup.
  by rewrite (Hperm updates), length_map_to_list.
Qed.

Lemma updatesToUpdateRequest_count_witness :
  bucketCount (updatesToUpdateRequest map_to_list scenarioUpdates)
  = size scenarioUpdates.
Proof.
  apply updatesToUpdateRequest_count. intros m. reflexivity.
Defined.

Lemma Trim_updates (rangeOrder : Updates -> list (string * updateValue))
    (updates : Updates) k :
  (forall m, rangeOrder m ≡ₚ map_to_list m) ->
  k ∈ Trim (updatesToUpdateRequest rangeOrder updates) <->
  updates !! k = Some TrimUtil.
Proof.
  intros Hperm.
  pose proof (inBucket_updates rangeOrder Hperm updates BTrim k) as H.
  simpl in H. rewrite H. split.
  - intros (v & Hv & Htag). by destruct v.
  - intros Hk. by exists TrimUtil.
Qed.

(** X17. The [trim] member of the request is written [null], not [[]],
    exactly when no field of the update set is tagged trim; otherwise it is
    the array of the trimmed names.  In particular the empty update set is
    sent as
    [{"set":{},"trim":null,"append":{},"prepend":{},"increment":{}}]. *)
Theorem Update_trim_null
    (rangeOrder : Updates -> list (string * updateValue)) (updates : Updates) :
  (forall m, rangeOrder m ≡ₚ map_to_list m) ->
  let ur := updatesToUpdateRequest rangeOrder updates in
  let encoded trim :=
    JObj [("set", marshalMap (Set_ ur)); ("trim", trim);
          ("append", marshalMap (Append ur)); ("prepend", marshalMap (Prepend ur));
          ("increment", marshalMap (Increment ur))] in
  ((forall k, updates !! k <> Some TrimUtil) <->
     marshalUpdateRequest ur = encoded JNull)
  /\ ((exists k, updates !! k = Some TrimUtil) ->
        marshalUpdateRequest ur = encoded (JArr (JStr <$> Trim ur)) /\
        forall k, k ∈ Trim ur <-> updates !! k = Some TrimUtil)
  /\ (updates = ∅ -> render (marshalUpdateRequest ur) = emptyUpdateWire).
Proof.
  intros Hperm ur encoded. unfold marshalUpdateRequest. fold ur. split_and!.
  - split.
    + intros Hno. destruct (Trim ur) as [|k ks] eqn:Htrim; [done|].
      destruct (Hno k). apply (Trim_updates rangeOrder); [done|].
      fold ur. rewrite Htrim. apply list_elem_of_here.
    + intros Heq k Hk. apply (Trim_updates rangeOrder) in Hk; [|done].
      fold ur in Hk. destruct (Trim ur) as [|k' ks]; [|done].
      by apply elem_of_nil in Hk.
  - intros [k Hk]. split; [|intros k'; by apply Trim_updates].
    apply (Trim_updates rangeOrder) in Hk; [|done]. fold ur in Hk.
    destruct (Trim ur); [by apply elem_of_nil in Hk|done].
  - intros ->. unfold ur, updatesToUpdateRequest.
    assert (rangeOrder ∅ = []) as ->.
    { apply Permutation_nil_r. rewrite (Hperm ∅). by rewrite map_to_list_empty. }
    by vm_compute.
Qed.

Lemma Update_trim_null_witness :
  render (marshalUpdateRequest (updatesToUpdateRequest map_to_list ∅))
  = emptyUpdateWire.
Proof.
  apply (Update_trim_null map_to_list ∅); [|done]. intros m. reflexivity.
Defined.

(** ** Paths *)

Lemma pathEscape_cons c s :
  pathEscape (String c s) = escapedByte c +:+ pathEscape s.
Proof. done. Qed.

Lemma occurs_app c s1 s2 : occurs c (s1 +:+ s2) <-> occurs c s1 \/ occurs c s2.
Proof. induction s1 as [|a s1 IH]; simpl; [tauto|]. rewrite IH. tauto. Qed.

Lemma allSegment_occurs s a :
  allSegment s = true -> occurs a s -> segmentByte a = true.
Proof.
  induction s as [|b s IH]; simpl; [done|].
  intros [Hb Hs]%andb_prop [->|Ha]; [done|]. by apply IH.
Qed.

Lemma escapedByte_allSegment c : allSegment (escapedByte c) = true.
Proof. destruct c as [[] [] [] [] [] [] [] []]; by vm_compute. Qed.

Lemma escapedByte_segment c a :
  occurs a (escapedByte c) -> segmentByte a = true.
Proof. apply allSegment_occurs, escapedByte_allSegment. Qed.

Lemma pathEscape_segment key a :
  occurs a (pathEscape key) -> segmentByte a = true.
Proof.
  induction key as [|c key IH]; [done|].
  rewrite pathEscape_cons, occurs_app. intros [H|H]; [|by apply IH].
  by eapply escapedByte_segment.
Qed.

(** X18. The key of [Get], [Update] and [Delete] stays in its own path
    segment: the path is [/items/] followed by bytes that [pathEscape]
    leaves alone and percent signs, so that no slash, question mark, hash
    sign, space or semicolon of the key gets into the path. *)
Theorem key_stays_in_its_segment (key : string) :
  exists segment,
    Path (getRequest key) = "/items/" +:+ segment
    /\ Path (deleteRequest key) = "/items/" +:+ segment
    /\ (forall rangeOrder updates,
          Path (patchRequest rangeOrder key updates) = "/items/" +:+ segment)
    /\ (forall a, occurs a segment -> segmentByte a = true)
    /\ ~ occurs "/" segment /\ ~ occurs "?" segment /\ ~ occurs "#" segment
    /\ ~ occurs " " segment /\ ~ occurs ";" segment.
Proof.
  exists (pathEscape key). split_and!; try done.
  - apply pathEscape_segment.
  - intros H. by apply pathEscape_segment in H.
  - intros H. by apply pathEscape_segment in H.
  - intros H. by apply pathEscape_segment in H.
  - intros H. by apply pathEscape_segment in H.
  - intros H. by apply pathEscape_segment in H.
Qed.

Lemma unhex_escapedByte c :
  shouldEscape c = true ->
  ascii_of_N (unhexDigit (upperHexDigit (N_of_ascii c / 16)) * 16
              + unhexDigit (upperHexDigit (N_of_ascii c mod 16))) = c.
Proof. destruct c as [[] [] [] [] [] [] [] []]; by vm_compute. Qed.

Lemma append_String c s r : String c s +:+ r = String c (s +:+ r).
Proof. reflexivity. Qed.

Lemma append_empty r : "" +:+ r = r.
Proof. reflexivity. Qed.

Lemma escapedByte_inj c1 c2 r1 r2 :
  escapedByte c1 +:+ r1 = escapedByte c2 +:+ r2 -> c1 = c2 /\ r1 = r2.
Proof.
  unfold escapedByte.
  destruct (shouldEscape c1) eqn:H1, (shouldEscape c2) eqn:H2;
    rewrite ?append_String, ?append_empty.
  - intros [= Hhi Hlo ->]. split; [|done].
    rewrite <- (unhex_escapedByte c1 H1), <- (unhex_escapedByte c2 H2).
    by rewrite Hhi, Hlo.
  - intros [= <- _]. by vm_compute in H2.
  - intros [= -> _]. by vm_compute in H1.
  - by intros [= -> ->].
Qed.

Lemma pathEscape_inj k1 k2 : pathEscape k1 = pathEscape k2 -> k1 = k2.
Proof.
  revert k2. induction k1 as [|c1 k1 IH]; intros [|c2 k2].
  - done.
  - rewrite pathEscape_cons. unfold escapedByte.
    by destruct (shouldEscape c2).
  - rewrite pathEscape_cons. unfold escapedByte.
    by destruct (shouldEscape c1).
  - rewrite !pathEscape_cons. intros H.
    apply escapedByte_inj in H as [-> H]. f_equal. by apply IH.
Qed.

(** X19. Different keys are addressed by different paths: the requests of
    [Get], of [Delete], and of [Update] for two different keys never have
    the same path. *)
Theorem distinct_keys_distinct_paths (k1 k2 : string) :
  k1 <> k2 ->
  Path (getRequest k1) <> Path (getRequest k2)
  /\ Path (deleteRequest k1) <> Path (deleteRequest k2)
  /\ (forall order1 order2 u1 u2,
        Path (patchRequest order1 k1 u1) <> Path (patchRequest order2 k2 u2)).
Proof.
  intros Hne.
  split_and!; [intros H|intros H|intros ???? H];
    simpl in H; injection H as H; by apply pathEscape_inj in H.
Qed.

Lemma distinct_keys_distinct_paths_witness :
  Path (getRequest "a/b") <> Path (getRequest "a%2Fb").
Proof.
  by apply (distinct_keys_distinct_paths "a/b" "a%2Fb").
Defined.

(** ** newBase *)

Lemma split_head sep s :
  exists p ps, split sep s = p :: ps
    /\ ~ occurs sep p
    /\ (s = p \/ exists rest, s = p +:+ String sep rest).
Proof.
  induction s as [|c s (p & ps & Hs & Hp & Hrest)]; simpl.
  - exists "", []. split_and!; [done|by intros []|by left].
  - case_decide as Hc.
    + subst c. exists "", (split sep s).
      split_and!; [done|by intros []|]. right. by exists s.
    + rewrite Hs. exists (String c p), ps. split_and!; [done| |].
      * simpl. intros [?|?]; [done|]. by apply Hp.
      * destruct Hrest as [->|[rest ->]]; [by left|]. right. by exists rest.
Qed.

(** X20. [newBase] never panics on [parts[0]]: a split always has a first
    piece.  The project id it puts into the endpoint is the project key up
    to its first underscore, the whole key when it has none; the endpoint
    is [root/projectID/baseName], and the key is sent whole in the
    [X-API-Key] header. *)
Theorem newBase_project_id (projectKey baseName rootEndpoint : string) :
  exists projectID,
    newBase projectKey baseName rootEndpoint =
      Ok {| endpoint := rootEndpoint +:+ "/" +:+ projectID +:+ "/" +:+ baseName;
            auth := {| authType := "api-key"; headerKey := "X-API-Key";
                       headerValue := projectKey |} |}
    /\ ~ occurs "_" projectID
    /\ (projectKey = projectID
        \/ exists secret, projectKey = projectID +:+ "_" +:+ secret).
Proof.
  destruct (split_head "_" projectKey) as (p & ps & Hs & Hp & Hrest).
  exists p. unfold newBase. rewrite Hs. done.
Qed.

(** ** Answers that are no JSON, values that are null *)

(** X21. An answer whose body is not a JSON text: [Get] reports it as
    [BadDestination]; [Fetch], [Insert] and [PutMany] return the error of
    the decoder as it is, which is neither [BadDestination] nor [BadItem];
    [Update] and [Delete] do not read the body and succeed. *)
Theorem answer_not_json (c : client) :
  (forall req, c req = inr None) ->
  (forall D (H : Destination D) key (dest : D),
     exists e, result (Get key dest) c = Err e /\ errorsIs e ErrBadDestination)
  /\ (forall D (H : Destination D) query (dest : D) limit,
        result (Fetch query dest limit) c = Err (ErrJSON syntaxError))
  /\ (forall item bi, modifyItem item = Ok bi ->
        result (Insert item) c = Err (ErrJSON syntaxError))
  /\ (forall items bis, modifyItems items = Ok bis ->
        (1 <= length bis <= 25)%nat ->
        result (PutMany items) c = Err (ErrJSON syntaxError))
  /\ (forall rangeOrder key updates,
        result (Update rangeOrder key updates) c = Ok tt)
  /\ (forall key, result (Delete key) c = Ok tt)
  /\ ~ errorsIs (ErrJSON syntaxError) ErrBadDestination
  /\ ~ errorsIs (ErrJSON syntaxError) ErrBadItem.
Proof.
  intros Hc. unfold result. split_and!.
  - intros D H key dest. rewrite Get_run. simpl. unfold got. rewrite Hc.
    eexists. split; [done|]. simpl. auto.
  - intros D H query dest limit. rewrite Fetch_run. simpl.
    unfold fetched. by rewrite Hc.
  - intros item bi Hbi. rewrite Insert_run, Hbi. simpl.
    unfold inserted. by rewrite Hc.
  - intros items bis Hbis Hlen. rewrite PutMany_run, Hbis.
    destruct (length bis =? 0)%nat eqn:H0; [apply Nat.eqb_eq in H0; lia|].
    destruct (25 <? length bis)%nat eqn:H25; [apply Nat.ltb_lt in H25; lia|].
    simpl. unfold putKeys. by rewrite Hc.
  - intros rangeOrder key updates. rewrite Update_run. simpl.
    unfold acknowledged. by rewrite Hc.
  - intros key. rewrite Delete_run. simpl. unfold acknowledged. by rewrite Hc.
  - simpl. by intros [|].
  - simpl. by intros [|].
Qed.

Lemma answer_not_json_witness :
  result (Fetch None ([] : list json) 0) (fun _ => inr None)
  = Err (ErrJSON syntaxError).
Proof.
  destruct (answer_not_json (fun _ => inr None) (fun _ => eq_refl))
    as (_ & Hfetch & _).
  apply Hfetch.
Defined.

(** X22. The nil guard of [Put] covers the nil interface only.  A value
    that is not the nil interface and whose encoding is [null] (a typed
    nil pointer) is sent by [Put] as [{"items":[null]}], and [Insert],
    which has no guard, sends every value whose encoding is [null], the
    nil interface included, as [{"item":null}]. *)
Theorem null_item_is_sent (c : client) (item : goValue) :
  marshal item = Some JNull ->
  wire <$> sent (Insert item) c = [Some nullItemWire]
  /\ (item <> GoNil -> wire <$> sent (Put item) c = [Some nullItemsWire]).
Proof.
  intros Hnull. unfold sent. split.
  - rewrite Insert_run. unfold modifyItem. rewrite Hnull. simpl. done.
  - intros Hnil. rewrite Put_run by done.
    rewrite modifyItems_GoSlice. simpl. rewrite Hnull. simpl. done.
Qed.

Lemma null_item_is_sent_witness :
  wire <$> sent (Insert GoNil) (fun _ => inr (Some JNull)) = [Some nullItemWire].
Proof.
  by apply (proj1 (null_item_is_sent (fun _ => inr (Some JNull)) GoNil eq_refl)).
Defined.
